(** * CRISPIN command-line launcher: model of [src/__main__.py]

    The launcher parses a command line with [click], checks that the
    pipeline entry file exists, and hands over to the workflow engine
    ([run]); or copies the bundled configuration templates into the
    working directory and makes sure a [log] directory exists ([init]).

    The model has these layers:
    - [Py]: the part of the Python runtime the program touches
      (exceptions, the process exit status, [os.path.exists], [os.mkdir]),
      as a state-and-exception monad that also records every call made;
    - [Click]: the option parser and the command group of the [click]
      library, which decide what the decorators of [run], [init] and [cli]
      do to a command line;
    - [Util]: the helpers the program imports from its own [util] module;
    - [Main]: the two commands and the command group of [__main__.py], over
      arbitrary helpers;
    - [Program]: [Main] linked with [Util].
    [Cmdline] and [Sample] hold the vocabulary and the sample inputs of the
    statements; the lemmas and the theorems follow. *)

From Stdlib Require Import ZArith Ascii.
From stdpp Require Import base strings list gmap sorting.

(** ** The Python runtime *)
Module Py.

(** The exceptions the program and its libraries raise. [UsageError] and
    [ClickExit] are click's; [SystemExit] is the interpreter's. *)
Inductive exn : Type :=
| FileNotFoundError (msg : string)
| FileExistsError (msg : string)
| PermissionError (msg : string)
| ValueError (msg : string)
| LaunchError (msg : string)
| SystemExit (code : Z)
| UsageError (msg : string)
| ClickExit (code : Z).

Inductive result (A : Type) : Type :=
| Returned (a : A)
| Raised (e : exn).
Global Arguments Returned {A} a.
Global Arguments Raised {A} e.

(** A filesystem entry. Keys of the filesystem map are path strings
    without a trailing slash. *)
Inductive node : Type :=
| File (content : string)
| Dir.

Global Instance node_eq_dec : EqDecision node.
Proof. solve_decision. Defined.

(** What the rest of the world records of a run: every existence test,
    every directory creation, every template copied, every entry into
    the workflow launcher, every child process with the status it ended
    with ([None] when it could not be started), every help page shown. *)
Inductive event : Type :=
| EvExists (path : string) (found : bool)
| EvMkdir (path : string)
| EvCopy (template : string)
| EvRunNextflow (nextfile_path mode : string) (nextflow_args : list string)
| EvSpawn (argv : list string) (status : option Z)
| EvHelp (command : string).

(** [fs] is the filesystem as seen from the working directory, [bundle]
    the templates shipped with the package (read-only), [writable]
    whether the working directory accepts new entries. *)
Record World : Type := mkWorld {
  fs : gmap string node;
  bundle : gmap string node;
  writable : bool
}.

Definition set_fs (f : gmap string node → gmap string node) (w : World) : World :=
  {| fs := f (fs w); bundle := bundle w; writable := writable w |}.

(** A computation reads and updates the world, returns or raises, and
    leaves the list of events it caused. *)
Definition M (A : Type) : Type := World → result A * World * list event.

Global Instance M_ret : MRet M := λ A a w, (Returned a, w, []).
Global Instance M_bind : MBind M := λ A B f m w,
  match m w with
  | (Returned a, w', t) =>
      match f a w' with
      | (r, w'', t') => (r, w'', t ++ t')
      end
  | (Raised e, w', t) => (Raised e, w', t)
  end.

Definition raise {A} (e : exn) : M A := λ w, (Raised e, w, []).
Definition emit (ev : event) : M unit := λ w, (Returned tt, w, [ev]).
Definition get_world : M World := λ w, (Returned w, w, []).
Definition modify_fs (f : gmap string node → gmap string node) : M unit :=
  λ w, (Returned tt, set_fs f w, []).

Definition outcome {A} (x : result A * World * list event) : result A := x.1.1.
Definition final {A} (x : result A * World * list event) : World := x.1.2.
Definition trace {A} (x : result A * World * list event) : list event := x.2.

(** Paths: a trailing slash asks for a directory. *)
Fixpoint ends_with_slash (p : string) : bool :=
  match p with
  | "" => false
  | String c "" => bool_decide (c = "/"%char)
  | String _ p' => ends_with_slash p'
  end.

Fixpoint strip_slash (p : string) : string :=
  match p with
  | "" => ""
  | String c p' =>
      match p' with
      | "" => if bool_decide (c = "/"%char) then "" else p
      | _ => String c (strip_slash p')
      end
  end.

(** [os.path.exists]: true when the path resolves; a regular file does not
    resolve under a name that ends in a slash. *)
Definition path_exists (w : World) (p : string) : bool :=
  match fs w !! strip_slash p with
  | Some Dir => true
  | Some (File _) => negb (ends_with_slash p)
  | None => false
  end.

Definition os_path_exists (p : string) : M bool := λ w,
  (Returned (path_exists w p), w, [EvExists p (path_exists w p)]).

(** [os.mkdir] of a name directly under the working directory: refuses an
    existing entry of any kind, then needs write permission. *)
Definition os_mkdir (p : string) : M unit :=
  emit (EvMkdir p) ;;
  w ← get_world;
  match fs w !! strip_slash p with
  | Some _ => raise (FileExistsError p)
  | None =>
      if writable w then modify_fs (insert (strip_slash p) Dir)
      else raise (PermissionError p)
  end.

(** The exit status of the process, as [click]'s standalone mode and the
    interpreter settle it: a callback that returns ends in [ctx.exit()],
    status 0; [Exit] and [SystemExit] carry their code; a usage error
    exits with 2; any other exception reaches the interpreter, which prints
    the traceback and exits with 1. *)
Definition exit_status {A} (r : result A) : Z :=
  match r with
  | Returned _ => 0
  | Raised (ClickExit c) => c
  | Raised (SystemExit c) => c
  | Raised (UsageError _) => 2
  | Raised _ => 1
  end.

End Py.

Import Py.

(** ** The option parser of [click]

    [click.parser.OptionParser] as the decorators of this program use it:
    options that store one value or a constant, one variadic argument,
    [ignore_unknown_options] and [allow_interspersed_args]. The order in
    which parameters were met is left out: it only fixes the order in which
    their values are converted, and a [str] conversion cannot fail. *)
Module Click.

(** A declared option: its option strings, the name it is stored under,
    and whether it stores the next token (action [store], [nargs=1]) or the
    constant [True] (action [store_const], a flag). *)
Record POption : Type := mkOption {
  names : list string;
  dest : string;
  takes_value : bool
}.

Inductive value : Type :=
| VStr (s : string)
| VTrue.

Global Instance value_eq_dec : EqDecision value.
Proof. solve_decision. Defined.

Inductive usage_error : Type :=
| NoSuchOption (name : string)
| BadOptionUsage (name msg : string)
| UnexpectedExtra (args : list string).

Definition requires_argument (name : string) : string :=
  "Option '" +:+ name +:+ "' requires an argument.".

Definition does_not_take_value (name : string) : string :=
  "Option '" +:+ name +:+ "' does not take a value.".

Definition isalnum (c : ascii) : bool :=
  let n := nat_of_ascii c in
  (48 <=? n)%nat && (n <=? 57)%nat || (65 <=? n)%nat && (n <=? 90)%nat
  || (97 <=? n)%nat && (n <=? 122)%nat.

(** [split_opt]: the prefix of an option string and the rest. *)
Definition split_opt (opt : string) : string * string :=
  match opt with
  | "" => ("", "")
  | String first rest =>
      if isalnum first then ("", opt)
      else match rest with
           | String c rest' =>
               if bool_decide (c = first) then (String first (String c ""), rest')
               else (String first "", rest)
           | "" => (String first "", "")
           end
  end.

Record OptionParser : Type := mkParser {
  long_opt : gmap string POption;
  short_opt : gmap string POption;
  opt_prefixes : gset string;
  ignore_unknown_options : bool;
  allow_interspersed_args : bool
}.

Definition new_parser (ignore_unknown interspersed : bool) : OptionParser :=
  {| long_opt := ∅; short_opt := ∅; opt_prefixes := {[ "-"; "--" ]};
     ignore_unknown_options := ignore_unknown;
     allow_interspersed_args := interspersed |}.

(** One option string of [add_option]: a one-character prefix with a
    one-character name is a short option, anything else a long one. (An
    option string that begins with a letter or a digit is refused by click
    when the option is declared; the program declares none.) *)
Definition register (o : POption) (p : OptionParser) (opt : string) : OptionParser :=
  let '(prefix, name) := split_opt opt in
  let first := String.substring 0 1 prefix in
  if bool_decide (String.length prefix = 1%nat ∧ String.length name = 1%nat) then
    {| long_opt := long_opt p; short_opt := <[opt := o]> (short_opt p);
       opt_prefixes := {[ first ]} ∪ opt_prefixes p;
       ignore_unknown_options := ignore_unknown_options p;
       allow_interspersed_args := allow_interspersed_args p |}
  else
    {| long_opt := <[opt := o]> (long_opt p); short_opt := short_opt p;
       opt_prefixes := {[ first; prefix ]} ∪ opt_prefixes p;
       ignore_unknown_options := ignore_unknown_options p;
       allow_interspersed_args := allow_interspersed_args p |}.

Definition add_option (p : OptionParser) (o : POption) : OptionParser :=
  foldl (register o) p (names o).

(** [state.opts] and [state.largs]; [state.rargs] is the list the loop
    below recurses on. *)
Record ParsingState : Type := mkState {
  opts : gmap string value;
  largs : list string
}.

Definition empty_state : ParsingState := {| opts := ∅; largs := [] |}.

Definition push_larg (arg : string) (st : ParsingState) : ParsingState :=
  {| opts := opts st; largs := largs st ++ [arg] |}.

(** [Option.process]: [state.opts[dest] = value]. *)
Definition process (o : POption) (v : value) (st : ParsingState) : ParsingState :=
  {| opts := <[dest o := v]> (opts st); largs := largs st |}.

(** What handling one option token comes to: a new state, an error, or a
    request for the next remaining token as the option's value
    ([_get_value_from_state] pops it). [NoMatch] is [NoSuchOption] caught
    by the caller. *)
Inductive step : Type :=
| Done (st : ParsingState)
| Need (name : string) (k : string → ParsingState)
| NoMatch (name : string)
| Fail (e : usage_error).

(** [arg.split("=", 1)] when the token holds an equals sign. *)
Fixpoint partition_eq (arg : string) : string * option string :=
  match arg with
  | "" => ("", None)
  | String c arg' =>
      if bool_decide (c = "="%char) then ("", Some arg')
      else let '(name, v) := partition_eq arg' in (String c name, v)
  end.

Definition match_long_opt (p : OptionParser) (opt : string)
    (explicit_value : option string) (st : ParsingState) : step :=
  match long_opt p !! opt with
  | None => NoMatch opt
  | Some o =>
      if takes_value o then
        match explicit_value with
        | Some v => Done (process o (VStr v) st)
        | None => Need opt (λ v, process o (VStr v) st)
        end
      else
        match explicit_value with
        | Some _ => Fail (BadOptionUsage opt (does_not_take_value opt))
        | None => Done (process o VTrue st)
        end
  end.

(** The end of [_match_short_opt]: the characters that matched nothing are
    put together again behind the prefix and kept as one argument. *)
Definition recombine (prefix : ascii) (unknown_options : string)
    (st : ParsingState) : ParsingState :=
  if bool_decide (unknown_options = "") then st
  else push_larg (String prefix unknown_options) st.

(** The loop of [_match_short_opt] over the characters behind the prefix. *)
Fixpoint match_short_chars (p : OptionParser) (prefix : ascii) (chars : string)
    (unknown_options : string) (st : ParsingState) : step :=
  match chars with
  | "" => Done (recombine prefix unknown_options st)
  | String ch rest =>
      let opt := String prefix (String ch "") in
      match short_opt p !! opt with
      | None =>
          if ignore_unknown_options p
          then match_short_chars p prefix rest (unknown_options +:+ String ch "") st
          else Fail (NoSuchOption opt)
      | Some o =>
          if takes_value o then
            if bool_decide (rest = "")
            then Need opt (λ v, recombine prefix unknown_options (process o (VStr v) st))
            else Done (recombine prefix unknown_options (process o (VStr rest) st))
          else match_short_chars p prefix rest unknown_options (process o VTrue st)
      end
  end.

Definition match_short_opt (p : OptionParser) (arg : string) (st : ParsingState) : step :=
  match arg with
  | "" => Done st
  | String prefix chars => match_short_chars p prefix chars "" st
  end.

Definition process_opts (p : OptionParser) (arg : string) (st : ParsingState) : step :=
  let '(long, explicit_value) := partition_eq arg in
  match match_long_opt p long explicit_value st with
  | NoMatch name =>
      if bool_decide (String.substring 0 2 arg ∉ opt_prefixes p)
      then match_short_opt p arg st
      else if ignore_unknown_options p then Done (push_larg arg st)
      else Fail (NoSuchOption name)
  | r => r
  end.

Definition option_like (p : OptionParser) (arg : string) : bool :=
  bool_decide (String.substring 0 1 arg ∈ opt_prefixes p)
  && bool_decide (1 < String.length arg)%nat.

(** [_process_args_for_options]: the state and the tokens left unread. *)
Fixpoint process_args_for_options (p : OptionParser) (st : ParsingState)
    (rargs : list string) : usage_error + ParsingState * list string :=
  match rargs with
  | [] => inr (st, [])
  | arg :: rest =>
      if bool_decide (arg = "--") then inr (st, rest)
      else if option_like p arg then
        match process_opts p arg st with
        | Done st' => process_args_for_options p st' rest
        | Need name k =>
            match rest with
            | v :: rest' => process_args_for_options p (k v) rest'
            | [] => inl (BadOptionUsage name (requires_argument name))
            end
        | NoMatch name => inl (NoSuchOption name)
        | Fail e => inl e
        end
      else if allow_interspersed_args p
      then process_args_for_options p (push_larg arg st) rest
      else inr (st, arg :: rest)
  end.

(** [parse_args]: the options found and the positional tokens, which are
    the kept ones followed by the unread ones. A variadic argument
    ([nargs=-1]) takes them all; a command without arguments refuses
    them. *)
Definition parse_args (p : OptionParser) (args : list string)
    : usage_error + gmap string value * list string :=
  match process_args_for_options p empty_state args with
  | inl e => inl e
  | inr (st, rargs) => inr (opts st, largs st ++ rargs)
  end.

Fixpoint join (sep : string) (l : list string) : string :=
  match l with
  | [] => ""
  | [x] => x
  | x :: l' => x +:+ sep +:+ join sep l'
  end.

Definition error_message (e : usage_error) : string :=
  match e with
  | NoSuchOption name => "No such option: " +:+ name
  | BadOptionUsage name msg => msg
  | UnexpectedExtra [arg] => "Got unexpected extra argument (" +:+ arg +:+ ")"
  | UnexpectedExtra args =>
      "Got unexpected extra arguments (" +:+ join " " args +:+ ")"
  end.

(** The value of a string option: what the command line stored, or the
    declared default. *)
Definition str_param (o : gmap string value) (name default : string) : string :=
  match o !! name with
  | Some (VStr s) => s
  | _ => default
  end.

Definition flag_param (o : gmap string value) (name : string) : bool :=
  bool_decide (o !! name = Some VTrue).

(** A command as a group sees it. *)
Record Command : Type := mkCommand {
  name : string;
  help : string;
  main : list string → M unit
}.

(** The class of a group decides how its commands are listed. *)
Record GroupClass : Type := mkGroupClass {
  list_commands : list (string * Command) → list string
}.

(** [click.Group.list_commands]: [sorted(self.commands)]. *)
Definition GroupCls : GroupClass :=
  {| list_commands := λ commands, merge_sort String.le commands.*1 |}.

(** [self.commands] is a dictionary, which keeps insertion order. *)
Record Group : Type := mkGroup {
  cls : GroupClass;
  commands : list (string * Command)
}.

Definition new_group (c : GroupClass) : Group := {| cls := c; commands := [] |}.

Fixpoint dict_set {V} (k : string) (v : V) (d : list (string * V)) : list (string * V) :=
  match d with
  | [] => [(k, v)]
  | (k', v') :: d' =>
      if decide (k = k') then (k, v) :: d' else (k', v') :: dict_set k v d'
  end.

Fixpoint dict_get {V} (k : string) (d : list (string * V)) : option V :=
  match d with
  | [] => None
  | (k', v) :: d' => if decide (k = k') then Some v else dict_get k d'
  end.

(** [add_command]: [self.commands[cmd.name] = cmd]. *)
Definition add_command (cmd : Command) (g : Group) : Group :=
  {| cls := cls g; commands := dict_set (name cmd) cmd (commands g) |}.

(** [format_commands]: one row of the help page per listed command, in
    the order [list_commands] gives (the shortening of the help texts is
    left out). *)
Definition format_commands (g : Group) : list (string * string) :=
  omap (λ subcommand, cmd ← dict_get subcommand (commands g); Some (subcommand, help cmd))
       (list_commands (cls g) (commands g)).

End Click.

(** ** The helpers of [util]

    [util.py] is imported by [__main__.py]; each helper is written from what
    the specification says of it. *)
Module Util.

Section engine.
(** The external workflow engine: given the command line and the world
    it either cannot be started, or ends with an exit status and leaves
    a world behind. *)
Variable nextflow : list string → World → option (Z * World).
(** The engine profile each execution mode selects; [None] for a mode
    the launcher refuses. *)
Variable profile_of_mode : string → option string.

Definition spawn (argv : list string) : M (option Z) := λ w,
  match nextflow argv w with
  | Some (code, w') => (Returned (Some code), w', [EvSpawn argv (Some code)])
  | None => (Returned None, w, [EvSpawn argv None])
  end.

(** Modelled from the spec: [run_nextflow] is not among the sources. The
    engine is invoked as [run <entryPath> -profile <profileName>
    <passthroughArgs...>], the arguments verbatim and in order; the
    launcher blocks until the child ends and makes the child's exit
    status its own, untranslated; an engine that cannot be started is a
    launch error. *)
Definition run_nextflow (nextfile_path mode : string) (nextflow_args : list string)
    : M unit :=
  match profile_of_mode mode with
  | None => raise (ValueError mode)
  | Some profile =>
      status ← spawn (["nextflow"; "run"; nextfile_path; "-profile"; profile]
                      ++ nextflow_args);
      match status with
      | Some code => raise (SystemExit code)
      | None => raise (LaunchError "nextflow")
      end
  end.
End engine.

(** [k] is [dir] itself or lies below it. *)
Definition under (dir k : string) : bool :=
  bool_decide (k = dir) || String.prefix (dir +:+ "/") k.

(** Modelled from the spec: [copy_config] is not among the sources. Each
    template path is copied, a file as a file and a directory with all
    that lies below it, from the bundled install location into the
    working directory under the same relative name; an entry already
    there is replaced. A template missing from the bundle or a working
    directory that cannot be written is a filesystem error, raised at
    once: what was copied before stays. *)
Definition copy_template (path : string) : M unit :=
  w ← get_world;
  let name := strip_slash path in
  match bundle w !! name with
  | None => raise (FileNotFoundError path)
  | Some template =>
      if writable w then
        emit (EvCopy path) ;;
        match template with
        | File content => modify_fs (insert name (File content))
        | Dir => modify_fs (λ f, filter (λ kv, under name kv.1) (bundle w) ∪ f)
        end
      else raise (PermissionError path)
  end.

Fixpoint copy_config (config_paths : list string) : M unit :=
  match config_paths with
  | [] => mret tt
  | path :: rest => copy_template path ;; copy_config rest
  end.

(** Modelled from the spec: [OrderedCommands] is not among the sources. A
    group of this class lists its commands in the order they were
    registered, not alphabetically. *)
Definition OrderedCommands : Click.GroupClass :=
  {| Click.list_commands := λ commands, commands.*1 |}.

End Util.

(** ** The commands of [__main__.py] *)
Module Main.

(** [**kwargs] of [run]: the one argument [common_options] declares. *)
Record Kwargs : Type := mkKwargs { nextflow_args : list string }.

(** The only acceptable GitHub repo option. *)
Definition github_repo : string := "CCBR/CRISPIN".

Definition not_found_message (main_path : string) : string :=
  "Path to the crispin main.nf file not found: " +:+ main_path.

(** The options the decorators of [run] declare, and the help option of
    its [context_settings]. *)
Definition main_option : Click.POption :=
  {| Click.names := ["--main"]; Click.dest := "main_path"; Click.takes_value := true |}.
Definition mode_option : Click.POption :=
  {| Click.names := ["--mode"]; Click.dest := "_mode"; Click.takes_value := true |}.
Definition help_option (help_option_names : list string) : Click.POption :=
  {| Click.names := help_option_names; Click.dest := "help"; Click.takes_value := false |}.

(** [run]: [ignore_unknown_options=True], help under [-h] and [--help]. *)
Definition run_parser : Click.OptionParser :=
  foldl Click.add_option (Click.new_parser true true)
    [main_option; mode_option; help_option ["-h"; "--help"]].

(** [init]: a plain [click.command()]. It is started through [cli], and a
    command context without [help_option_names] of its own takes those of
    its parent, so its help is under [-h] and [--help] as well. *)
Definition init_parser : Click.OptionParser :=
  foldl Click.add_option (Click.new_parser false true)
    [help_option ["-h"; "--help"]].

(** The flags the decorators of [cli] declare: [-v]/[--version] and
    [--citation]. *)
Definition version_option : Click.POption :=
  {| Click.names := ["-v"; "--version"]; Click.dest := "version";
     Click.takes_value := false |}.
Definition citation_option : Click.POption :=
  {| Click.names := ["--citation"]; Click.dest := "citation";
     Click.takes_value := false |}.

(** [cli]: a group reads its own options only in front of the command name
    ([allow_interspersed_args] is off for groups) and knows no others. *)
Definition cli_parser : Click.OptionParser :=
  foldl Click.add_option (Click.new_parser false false)
    [version_option; citation_option; help_option ["-h"; "--help"]].

Section commands.
(** What the program imports from [util]. *)
Variable nek_base : string → string.
Variable run_nextflow : string → string → list string → M unit.
Variable copy_config : list string → M unit.

Definition call_run_nextflow (nextfile_path mode : string) (kwargs : Kwargs) : M unit :=
  emit (EvRunNextflow nextfile_path mode (nextflow_args kwargs)) ;;
  run_nextflow nextfile_path mode (nextflow_args kwargs).

Definition run (main_path _mode : string) (kwargs : Kwargs) : M unit :=
  (if bool_decide (main_path ≠ github_repo) then
     found ← os_path_exists main_path;
     if negb found then raise (FileNotFoundError (not_found_message main_path))
     else mret tt
   else mret tt) ;;
  call_run_nextflow main_path _mode kwargs.

Definition init : M unit :=
  let paths := ["nextflow.config"; "conf/"; "assets/"] in
  copy_config paths ;;
  found ← os_path_exists "log/";
  if negb found then os_mkdir "log/" else mret tt.

(** The eager help flag: print the help page and leave with status 0. *)
Definition show_help (command : string) : M unit :=
  emit (EvHelp command) ;; raise (ClickExit 0).

(** [run] as a command: parse, serve [--help], fill in the defaults of
    [--main] and [--mode], call the function. The variadic argument
    [nextflow_args] that [common_options] adds takes every positional
    token. *)
Definition run_command (args : list string) : M unit :=
  match Click.parse_args run_parser args with
  | inl e => raise (UsageError (Click.error_message e))
  | inr (o, positional) =>
      if Click.flag_param o "help" then show_help "run"
      else run (Click.str_param o "main_path" (nek_base "main.nf"))
               (Click.str_param o "_mode" "local")
               {| nextflow_args := positional |}
  end.

Definition init_command (args : list string) : M unit :=
  match Click.parse_args init_parser args with
  | inl e => raise (UsageError (Click.error_message e))
  | inr (o, positional) =>
      if Click.flag_param o "help" then show_help "init"
      else match positional with
           | [] => init
           | _ => raise (UsageError (Click.error_message (Click.UnexpectedExtra positional)))
           end
  end.

(** [cli]: the group, [cls=OrderedCommands], and the two registrations
    at the end of the file. *)
Variable OrderedCommands : Click.GroupClass.

Definition run_cmd : Click.Command :=
  {| Click.name := "run"; Click.help := "Run the workflow"; Click.main := run_command |}.
Definition init_cmd : Click.Command :=
  {| Click.name := "init";
     Click.help := "Initialize the working directory by copying the system default config files";
     Click.main := init_command |}.

Definition cli : Click.Group :=
  Click.add_command init_cmd
    (Click.add_command run_cmd (Click.new_group OrderedCommands)).
End commands.

End Main.

(** ** The program: [__main__.py] linked with [util] *)
Module Program.

Section engine.
Variable nek_base : string → string.
Variable nextflow : list string → World → option (Z * World).
Variable profile_of_mode : string → option string.

Definition run : string → string → Main.Kwargs → M unit :=
  Main.run (Util.run_nextflow nextflow profile_of_mode).

Definition run_command : list string → M unit :=
  Main.run_command nek_base (Util.run_nextflow nextflow profile_of_mode).

Definition init : M unit := Main.init Util.copy_config.

Definition cli : Click.Group :=
  Main.cli nek_base (Util.run_nextflow nextflow profile_of_mode)
           Util.copy_config Util.OrderedCommands.
End engine.

End Program.

(** ** Vocabulary of the statements *)
Module Cmdline.

(** The part of a token in front of its first equals sign: what the
    parser looks up among the long options. *)
Definition long_name (arg : string) : string := (Click.partition_eq arg).1.

Definition declared_long (arg : string) : bool :=
  bool_decide (long_name arg ∈ ["--main"; "--mode"; "--help"]).

Fixpoint has_char (c : ascii) (s : string) : bool :=
  match s with
  | "" => false
  | String c' s' => bool_decide (c' = c) || has_char c s'
  end.

Fixpoint drop_char (c : ascii) (s : string) : string :=
  match s with
  | "" => ""
  | String c' s' => if bool_decide (c' = c) then drop_char c s' else String c' (drop_char c s')
  end.

(** A token that begins with a dash and that no option of [run] matches:
    the bare dash; two dashes followed by a name other than [main], [mode]
    and [help]; one dash followed by characters none of which is the short
    help flag [h]. The end-of-options marker [--] is not one of them. *)
Definition unrecognized (arg : string) : bool :=
  match arg with
  | "" => false
  | String c0 rest =>
      bool_decide (c0 = "-"%char) &&
      match rest with
      | "" => true
      | String c1 rest' =>
          if bool_decide (c1 = "-"%char)
          then negb (bool_decide (rest' = "")) && negb (declared_long arg)
          else negb (has_char "h" rest)
      end
  end.

(** No token is [--mode] or [--mode=...]. *)
Definition omits_mode (args : list string) : Prop :=
  Forall (λ arg, long_name arg ≠ "--mode") args.

(** The help flag was met. *)
Definition help_seen (st : Click.ParsingState) : Prop :=
  Click.opts st !! "help" = Some Click.VTrue.

(** Two parser states that differ in one thing: the first has [--mode
    local] stored, the second has no mode stored. *)
Definition mode_preset (st1 st2 : Click.ParsingState) : Prop :=
  Click.opts st1 = <["_mode" := Click.VStr "local"]> (Click.opts st2)
  ∧ Click.opts st2 !! "_mode" = None
  ∧ Click.largs st1 = Click.largs st2.

Definition begins_with_dash (arg : string) : bool :=
  match arg with
  | "" => false
  | String c _ => bool_decide (c = "-"%char)
  end.

(** A token the option loop of [run] keeps as it is: a word that does not
    begin with a dash, or an unrecognized option. *)
Definition forwarded (arg : string) : bool :=
  negb (begins_with_dash arg) || unrecognized arg.

(** A token that sets the help flag of [run] when it is read as an option:
    [--help], or one dash followed by characters among which is [h]. *)
Definition asks_help (arg : string) : bool :=
  bool_decide (arg = "--help")
  || match arg with
     | String c0 (String c1 r) =>
         bool_decide (c0 = "-"%char) && negb (bool_decide (c1 = "-"%char))
         && has_char "h" (String c1 r)
     | _ => false
     end.

(** What the command [run] does once the option loop has ended: the way
    [Main.run_command] goes on behind [Click.parse_args]. *)
Definition run_parsed (nek_base : string → string)
    (run_nextflow : string → string → list string → M unit)
    (r : Click.usage_error + Click.ParsingState * list string) : M unit :=
  match r with
  | inl e => raise (UsageError (Click.error_message e))
  | inr (st, rargs) =>
      if Click.flag_param (Click.opts st) "help" then Main.show_help "run"
      else Main.run run_nextflow
             (Click.str_param (Click.opts st) "main_path" (nek_base "main.nf"))
             (Click.str_param (Click.opts st) "_mode" "local")
             {| Main.nextflow_args := Click.largs st ++ rargs |}
  end.

Definition launched (ev : event) : Prop :=
  match ev with
  | EvRunNextflow _ _ _ | EvSpawn _ _ => True
  | _ => False
  end.

End Cmdline.

(** ** Sample inputs *)
Module Sample.

(** An installation under [/opt/crispin] and a fresh working directory. *)
Definition nek_base (path : string) : string := "/opt/crispin/" +:+ path.

Definition templates : gmap string node :=
  {[ "nextflow.config" := File "params {}";
     "conf" := Dir;
     "conf/slurm.config" := File "process.executor = 'slurm'";
     "assets" := Dir;
     "assets/logo.txt" := File "CRISPIN" ]}.

Definition fresh : World :=
  {| fs := {[ "/opt/crispin/main.nf" := File "workflow {}" ]};
     bundle := templates;
     writable := true |}.

(** An engine that ends with status 3 and touches nothing. *)
Definition failing_engine (argv : list string) (w : World) : option (Z * World) :=
  Some (3%Z, w).

Definition profile_of_mode (mode : string) : option string :=
  if bool_decide (mode ∈ ["local"; "slurm"]) then Some mode else None.

(** A launcher that would start a child at once. *)
Definition eager_launcher (nextfile_path mode : string) (nextflow_args : list string)
    : M unit :=
  emit (EvSpawn ("nextflow" :: "run" :: nextfile_path :: nextflow_args) (Some 0%Z)).

End Sample.

Import Click Main Cmdline.

(** ** The parser of [run], option by option *)
Section run_parser_facts.

Lemma run_parser_long :
  long_opt run_parser =
  <["--main" := main_option]> (<["--mode" := mode_option]>
    (<["--help" := help_option ["-h"; "--help"]]> ∅)).
Proof. reflexivity. Qed.

Lemma run_parser_short :
  short_opt run_parser = {[ "-h" := help_option ["-h"; "--help"] ]}.
Proof. reflexivity. Qed.

Lemma run_parser_prefixes : opt_prefixes run_parser = {[ "-"; "--" ]}.
Proof. vm_compute. reflexivity. Qed.

Lemma run_parser_ignores_unknown : ignore_unknown_options run_parser = true.
Proof. reflexivity. Qed.

Lemma run_parser_interspersed : allow_interspersed_args run_parser = true.
Proof. reflexivity. Qed.

Lemma run_long_lookup name :
  long_opt run_parser !! name =
  if decide (name = "--main") then Some main_option
  else if decide (name = "--mode") then Some mode_option
  else if decide (name = "--help") then Some (help_option ["-h"; "--help"])
  else None.
Proof.
  rewrite run_parser_long.
  repeat case_decide; subst; simplify_map_eq; done.
Qed.

Lemma run_short_lookup prefix ch :
  short_opt run_parser !! String prefix (String ch "") =
  if decide (prefix = "-"%char ∧ ch = "h"%char)
  then Some (help_option ["-h"; "--help"]) else None.
Proof.
  rewrite run_parser_short.
  case_decide as H.
  - destruct H as [-> ->]. by rewrite lookup_singleton_eq.
  - apply lookup_singleton_ne. intros [= <- <-]. by apply H.
Qed.

Lemma run_option_like arg :
  option_like run_parser arg =
  match arg with
  | String c0 (String _ _) => bool_decide (c0 = "-"%char)
  | _ => false
  end.
Proof.
  unfold option_like. rewrite run_parser_prefixes.
  destruct arg as [|c0 [|c1 r]]; simpl.
  - apply andb_false_r.
  - apply andb_false_r.
  - rewrite andb_true_r. apply bool_decide_ext.
    rewrite elem_of_union, !elem_of_singleton.
    split; [intros [[=]|[=]]|intros ->]; auto.
Qed.

Lemma app_cons c u s : String c u +:+ s = String c (u +:+ s).
Proof. reflexivity. Qed.

Lemma app_snoc_char u ch s : (u +:+ String ch "") +:+ s = u +:+ String ch s.
Proof. induction u as [|c u IH]; [done|]. by rewrite !app_cons, IH. Qed.

Lemma app_empty_r u : u +:+ "" = u.
Proof. induction u as [|c u IH]; [done|]. by rewrite app_cons, IH. Qed.

Lemma process_help_twice st :
  process (help_option ["-h"; "--help"]) VTrue
    (process (help_option ["-h"; "--help"]) VTrue st)
  = process (help_option ["-h"; "--help"]) VTrue st.
Proof. unfold process; simpl. by rewrite insert_insert_eq. Qed.

(** A cluster of short options: every [h] sets the help flag, the other
    characters are put together again. *)
Lemma run_short_chars chars unknown st :
  match_short_chars run_parser "-" chars unknown st =
  Done (recombine "-" (unknown +:+ drop_char "h" chars)
          (if has_char "h" chars
           then process (help_option ["-h"; "--help"]) VTrue st else st)).
Proof.
  revert unknown st. induction chars as [|ch chars IH]; intros unknown st.
  - simpl. by rewrite app_empty_r.
  - cbn [match_short_chars has_char drop_char].
    rewrite run_short_lookup, run_parser_ignores_unknown.
    case_decide as H.
    + destruct H as [_ ->].
      rewrite !(bool_decide_eq_true_2 ("h"%char = "h"%char)) by reflexivity.
      cbn [takes_value help_option orb]. rewrite IH.
      destruct (has_char "h" chars); by rewrite ?process_help_twice.
    + rewrite !(bool_decide_eq_false_2 (ch = "h"%char)) by (intros ->; auto).
      cbn [orb]. rewrite IH. by rewrite app_snoc_char.
Qed.

(** What [run] does with one option-like token. *)
Lemma run_process_opts c1 r st :
  process_opts run_parser (String "-" (String c1 r)) st =
  let arg := String "-" (String c1 r) in
  let '(name, explicit_value) := partition_eq arg in
  if decide (name = "--main") then
    match explicit_value with
    | Some v => Done (process main_option (VStr v) st)
    | None => Need name (λ v, process main_option (VStr v) st)
    end
  else if decide (name = "--mode") then
    match explicit_value with
    | Some v => Done (process mode_option (VStr v) st)
    | None => Need name (λ v, process mode_option (VStr v) st)
    end
  else if decide (name = "--help") then
    match explicit_value with
    | Some _ => Fail (BadOptionUsage name (does_not_take_value name))
    | None => Done (process (help_option ["-h"; "--help"]) VTrue st)
    end
  else if decide (c1 = "-"%char) then Done (push_larg arg st)
  else Done (recombine "-" (drop_char "h" (String c1 r))
               (if has_char "h" (String c1 r)
                then process (help_option ["-h"; "--help"]) VTrue st else st)).
Proof.
  unfold process_opts, match_long_opt.
  destruct (partition_eq (String "-" (String c1 r))) as [name ev].
  rewrite run_long_lookup, run_parser_prefixes, run_parser_ignores_unknown.
  cbn zeta.
  destruct (decide (name = "--main")) as [->|?]; [by destruct ev|].
  destruct (decide (name = "--mode")) as [->|?]; [by destruct ev|].
  destruct (decide (name = "--help")) as [->|?]; [by destruct ev|].
  replace (String.substring 0 2 (String "-" (String c1 r)))
    with (String "-" (String c1 "")) by (by destruct r).
  destruct (decide (c1 = "-"%char)) as [->|?].
  - rewrite bool_decide_eq_false_2; [done|].
    intros H. apply H, elem_of_union_r. by apply elem_of_singleton.
  - rewrite bool_decide_eq_true_2.
    + unfold match_short_opt. by rewrite run_short_chars.
    + rewrite elem_of_union, !elem_of_singleton. intros [[=]|[=]]. done.
Qed.

End run_parser_facts.

(** ** The option loop, for any parser *)
Section option_loop.
Variable p : OptionParser.

(** Induction along the run of [process_args_for_options]: one case per
    way the loop can go on or stop. *)
Lemma option_loop_ind
    (P : ParsingState → list string → usage_error + ParsingState * list string → Prop) :
  (∀ st, P st [] (inr (st, []))) →
  (∀ st rest, P st ("--" :: rest) (inr (st, rest))) →
  (∀ st arg rest st', arg ≠ "--" → option_like p arg = true →
     process_opts p arg st = Done st' →
     P st' rest (process_args_for_options p st' rest) →
     P st (arg :: rest) (process_args_for_options p st' rest)) →
  (∀ st arg name k v rest, arg ≠ "--" → option_like p arg = true →
     process_opts p arg st = Need name k →
     P (k v) rest (process_args_for_options p (k v) rest) →
     P st (arg :: v :: rest) (process_args_for_options p (k v) rest)) →
  (∀ st arg name k, arg ≠ "--" → option_like p arg = true →
     process_opts p arg st = Need name k →
     P st [arg] (inl (BadOptionUsage name (requires_argument name)))) →
  (∀ st arg name rest, arg ≠ "--" → option_like p arg = true →
     process_opts p arg st = NoMatch name →
     P st (arg :: rest) (inl (NoSuchOption name))) →
  (∀ st arg e rest, arg ≠ "--" → option_like p arg = true →
     process_opts p arg st = Fail e →
     P st (arg :: rest) (inl e)) →
  (∀ st arg rest, arg ≠ "--" → option_like p arg = false →
     allow_interspersed_args p = true →
     P (push_larg arg st) rest (process_args_for_options p (push_larg arg st) rest) →
     P st (arg :: rest) (process_args_for_options p (push_larg arg st) rest)) →
  (∀ st arg rest, arg ≠ "--" → option_like p arg = false →
     allow_interspersed_args p = false →
     P st (arg :: rest) (inr (st, arg :: rest))) →
  ∀ st rargs, P st rargs (process_args_for_options p st rargs).
Proof.
  intros Hnil Hend Hdone Hneed Hmissing Hnomatch Hfail Hkeep Hstop st rargs.
  remember (length rargs) as n eqn:Hn. revert st rargs Hn.
  induction n as [n IH] using lt_wf_ind. intros st [|arg rest] Hn.
  - apply Hnil.
  - cbn [process_args_for_options]. simpl in Hn.
    case_bool_decide as Harg; [subst arg; apply Hend|].
    destruct (option_like p arg) eqn:Hlike.
    + destruct (process_opts p arg st) as [st'|name k|name|e] eqn:Hstep.
      * apply Hdone; auto. apply (IH (length rest)); [lia|done].
      * destruct rest as [|v rest'].
        -- by eapply Hmissing.
        -- eapply Hneed; eauto. apply (IH (length rest')); [simpl in *; lia|done].
      * by apply Hnomatch.
      * by apply Hfail.
    + destruct (allow_interspersed_args p) eqn:Hinter.
      * apply Hkeep; auto. apply (IH (length rest)); [lia|done].
      * by apply Hstop.
Qed.

(** Tokens that the loop keeps one by one, whatever the state, are kept
    behind any prefix that was read to its end. *)
Lemma process_args_app ts :
  (∀ st, process_args_for_options p st ts
         = inr ({| opts := opts st; largs := largs st ++ ts |}, [])) →
  ∀ st0 pre st,
    process_args_for_options p st0 pre = inr (st, []) →
    ∃ st2 rargs,
      process_args_for_options p st0 (pre ++ ts) = inr (st2, rargs)
      ∧ opts st2 = opts st ∧ largs st2 ++ rargs = largs st ++ ts.
Proof.
  intros Hts st0 pre.
  pattern st0, pre, (process_args_for_options p st0 pre).
  apply option_loop_ind; clear st0 pre.
  - intros st0 st [= <-]. simpl. rewrite Hts.
    eexists _, _. split_and!; [done..|]. simpl. by rewrite app_nil_r.
  - intros st0 rest st [= <- ->]. simpl. eauto.
  - intros st0 arg rest st' Harg Hlike Hstep IH st Hrun.
    cbn [app process_args_for_options].
    rewrite bool_decide_eq_false_2, Hlike, Hstep by done. auto.
  - intros st0 arg name k v rest Harg Hlike Hstep IH st Hrun.
    cbn [app process_args_for_options].
    rewrite bool_decide_eq_false_2, Hlike, Hstep by done. auto.
  - done.
  - done.
  - done.
  - intros st0 arg rest Harg Hlike Hinter IH st Hrun.
    cbn [app process_args_for_options].
    rewrite bool_decide_eq_false_2, Hlike, Hinter by done. auto.
  - intros st0 arg rest Harg Hlike Hinter st [=].
Qed.

End option_loop.

(** ** The option loop of [run] *)
Section run_loop.

Lemma drop_char_absent c s : has_char c s = false → drop_char c s = s.
Proof.
  induction s as [|c' s IH]; [done|]. cbn [has_char drop_char].
  intros [Hc Hs]%orb_false_iff. rewrite Hc. by rewrite IH.
Qed.

(** A token with one dash only is the name of no long option. *)
Lemma single_dash_long_name c1 r :
  c1 ≠ "-"%char →
  long_name (String "-" (String c1 r)) ∉ ["--main"; "--mode"; "--help"].
Proof.
  intros Hc1. unfold long_name. cbn [partition_eq].
  rewrite (bool_decide_eq_false_2 ("-"%char = "="%char)) by done.
  case_bool_decide.
  - cbn. rewrite !elem_of_cons, elem_of_nil. intros [[=]|[[=]|[[=]|[]]]].
  - destruct (partition_eq r) as [name v]. cbn.
    rewrite !elem_of_cons, elem_of_nil.
    intros [[=]|[[=]|[[=]|[]]]]; congruence.
Qed.

Lemma undeclared_long_name arg :
  long_name arg ∉ ["--main"; "--mode"; "--help"] →
  long_name arg ≠ "--main" ∧ long_name arg ≠ "--mode" ∧ long_name arg ≠ "--help".
Proof. rewrite !elem_of_cons, elem_of_nil. naive_solver. Qed.

(** An unrecognized option goes to the kept arguments as it is, and the
    loop goes on behind it. *)
Lemma run_keeps_unrecognized st arg rest :
  unrecognized arg = true →
  process_args_for_options run_parser st (arg :: rest)
  = process_args_for_options run_parser (push_larg arg st) rest.
Proof.
  intros Harg. cbn [process_args_for_options].
  rewrite run_option_like, run_parser_interspersed.
  destruct arg as [|c0 [|c1 r]]; [done| |].
  - by rewrite bool_decide_eq_false_2.
  - cbn [unrecognized] in Harg. apply andb_true_iff in Harg as [Hc0 Harg].
    apply bool_decide_eq_true in Hc0 as ->.
    rewrite (bool_decide_eq_true_2 ("-"%char = "-"%char)) by done.
    rewrite run_process_opts. cbn zeta.
    case_bool_decide as Hc1.
    + subst c1. apply andb_true_iff in Harg as [Hr Hdecl].
      apply negb_true_iff, bool_decide_eq_false in Hr.
      apply negb_true_iff, bool_decide_eq_false in Hdecl.
      rewrite bool_decide_eq_false_2 by congruence.
      apply undeclared_long_name in Hdecl as (? & ? & ?).
      unfold long_name in *.
      destruct (partition_eq (String "-" (String "-" r))) as [name v].
      cbn [fst] in *. by rewrite !decide_False by done.
    + apply negb_true_iff in Harg.
      rewrite bool_decide_eq_false_2 by congruence.
      pose proof (single_dash_long_name c1 r Hc1) as Hdecl.
      apply undeclared_long_name in Hdecl as (? & ? & ?).
      unfold long_name in *.
      destruct (partition_eq (String "-" (String c1 r))) as [name v].
      cbn [fst] in *. rewrite !decide_False by done.
      rewrite Harg, drop_char_absent by done. done.
Qed.

Lemma run_keeps_all_unrecognized ts :
  Forall (λ arg, unrecognized arg = true) ts →
  ∀ st, process_args_for_options run_parser st ts
        = inr ({| opts := opts st; largs := largs st ++ ts |}, []).
Proof.
  induction 1 as [|arg ts Harg _ IH]; intros st.
  - simpl. rewrite app_nil_r. by destruct st.
  - rewrite run_keeps_unrecognized, IH by done.
    simpl. by rewrite <- app_assoc.
Qed.

(** *** The help flag, once met, stays *)

Lemma help_seen_store o v st :
  dest o ≠ "help" → help_seen (process o v st) ↔ help_seen st.
Proof. intros Hd. unfold help_seen, process; simpl. by rewrite lookup_insert_ne. Qed.

Lemma help_seen_help st : help_seen (process (help_option ["-h"; "--help"]) VTrue st).
Proof. unfold help_seen, process; simpl. by rewrite lookup_insert_eq. Qed.

Lemma help_seen_recombine u st : help_seen (recombine "-" u st) ↔ help_seen st.
Proof. unfold recombine. by case_bool_decide. Qed.

Lemma option_like_shape arg :
  option_like run_parser arg = true → ∃ c1 r, arg = String "-" (String c1 r).
Proof.
  rewrite run_option_like. destruct arg as [|c0 [|c1 r]]; [done..|].
  intros ->%bool_decide_eq_true. eauto.
Qed.

(** What one option-like token does to the help flag and to the kept
    arguments. *)
Lemma run_step_effect arg st :
  option_like run_parser arg = true →
  match process_opts run_parser arg st with
  | Done st' =>
      (help_seen st → help_seen st')
      ∧ (help_seen st' ∨ largs st' = largs st ∨ largs st' = largs st ++ [arg])
  | Need _ k => ∀ v, (help_seen st → help_seen (k v)) ∧ largs (k v) = largs st
  | NoMatch _ => False
  | Fail _ => True
  end.
Proof.
  intros (c1 & r & ->)%option_like_shape. rewrite run_process_opts. cbn zeta.
  destruct (partition_eq (String "-" (String c1 r))) as [name ev].
  repeat case_decide.
  - destruct ev; [split|intros v; split]; rewrite ?help_seen_store by done; auto.
  - destruct ev; [split|intros v; split]; rewrite ?help_seen_store by done; auto.
  - destruct ev; [done|]. split; auto using help_seen_help.
  - split; auto.
  - destruct (has_char "h" (String c1 r)) eqn:Hh.
    + split; [|left]; rewrite help_seen_recombine; auto using help_seen_help.
    + rewrite drop_char_absent by done. split; [by rewrite help_seen_recombine|].
      right; right. reflexivity.
Qed.

Lemma run_help_stays st rargs st' rest :
  process_args_for_options run_parser st rargs = inr (st', rest) →
  help_seen st → help_seen st'.
Proof.
  revert st' rest.
  pattern st, rargs, (process_args_for_options run_parser st rargs).
  apply option_loop_ind; clear st rargs.
  - by intros st st' rest [= <- <-].
  - by intros st rest0 st' rest [= <- <-].
  - intros st arg rest0 st1 _ Hlike Hstep IH st' rest Hrun Hst.
    pose proof (run_step_effect arg st Hlike) as Heff. rewrite Hstep in Heff.
    eapply IH; [done|]. by apply Heff.
  - intros st arg name k v rest0 _ Hlike Hstep IH st' rest Hrun Hst.
    pose proof (run_step_effect arg st Hlike) as Heff. rewrite Hstep in Heff.
    eapply IH; [done|]. by apply Heff.
  - done.
  - done.
  - done.
  - intros st arg rest0 _ _ _ IH st' rest Hrun Hst. by eapply IH.
  - by intros st arg rest0 _ _ _ st' rest [= <- <-].
Qed.

(** *** Without the help flag, what is kept is a subsequence of what was
    typed *)
Lemma run_kept_sublist st rargs st' rest :
  process_args_for_options run_parser st rargs = inr (st', rest) →
  ¬ help_seen st' →
  ∃ kept, largs st' = largs st ++ kept ∧ kept ++ rest `sublist_of` rargs.
Proof.
  revert st' rest.
  pattern st, rargs, (process_args_for_options run_parser st rargs).
  apply option_loop_ind; clear st rargs.
  - intros st st' rest [= <- <-] _. exists []. by rewrite app_nil_r.
  - intros st rest0 st' rest [= <- <-] _. exists []. rewrite app_nil_r.
    split; [done|]. by apply sublist_cons.
  - intros st arg rest0 st1 _ Hlike Hstep IH st' rest Hrun Hst'.
    destruct (IH _ _ Hrun Hst') as (kept & Hkept & Hsub).
    pose proof (run_step_effect arg st Hlike) as Heff. rewrite Hstep in Heff.
    destruct Heff as [_ [Hseen|[Hl|Hl]]].
    + destruct Hst'. by eapply run_help_stays.
    + exists kept. rewrite Hkept, Hl. split; [done|]. by apply sublist_cons.
    + exists (arg :: kept). rewrite Hkept, Hl, <- app_assoc.
      split; [done|]. by apply sublist_skip.
  - intros st arg name k v rest0 _ Hlike Hstep IH st' rest Hrun Hst'.
    destruct (IH _ _ Hrun Hst') as (kept & Hkept & Hsub).
    pose proof (run_step_effect arg st Hlike) as Heff. rewrite Hstep in Heff.
    destruct (Heff v) as [_ Hl].
    exists kept. rewrite Hkept, Hl. split; [done|]. by do 2 apply sublist_cons.
  - done.
  - done.
  - done.
  - intros st arg rest0 _ _ _ IH st' rest Hrun Hst'.
    destruct (IH _ _ Hrun Hst') as (kept & Hkept & Hsub).
    exists (arg :: kept). rewrite Hkept. simpl. rewrite <- app_assoc.
    split; [done|]. by apply sublist_skip.
  - pose proof run_parser_interspersed. congruence.
Qed.

Lemma run_positional_sublist args o positional :
  parse_args run_parser args = inr (o, positional) →
  flag_param o "help" = false →
  positional `sublist_of` args.
Proof.
  unfold parse_args, flag_param.
  destruct (process_args_for_options run_parser empty_state args)
    as [e|[st rest]] eqn:Hrun; [done|].
  intros [= <- <-] Hhelp%bool_decide_eq_false.
  destruct (run_kept_sublist _ _ _ _ Hrun Hhelp) as (kept & -> & Hsub).
  done.
Qed.

(** *** A mode given as [--mode local] and a mode left out *)

Lemma mode_preset_store o v st1 st2 :
  dest o ≠ "_mode" → mode_preset st1 st2 →
  mode_preset (process o v st1) (process o v st2).
Proof.
  intros Hd (Ho & Hnone & Hl). unfold mode_preset, process; simpl.
  rewrite Ho, lookup_insert_ne by done. split_and!; [|done..].
  by apply insert_insert_ne.
Qed.

Lemma mode_preset_push arg st1 st2 :
  mode_preset st1 st2 → mode_preset (push_larg arg st1) (push_larg arg st2).
Proof. intros (Ho & Hnone & Hl). unfold mode_preset; simpl. by rewrite Hl. Qed.

Lemma mode_preset_recombine u st1 st2 :
  mode_preset st1 st2 → mode_preset (recombine "-" u st1) (recombine "-" u st2).
Proof. unfold recombine. case_bool_decide; auto using mode_preset_push. Qed.

Lemma run_step_mode_preset arg st1 st2 :
  option_like run_parser arg = true →
  long_name arg ≠ "--mode" →
  mode_preset st1 st2 →
  match process_opts run_parser arg st1, process_opts run_parser arg st2 with
  | Done s1, Done s2 => mode_preset s1 s2
  | Need n1 k1, Need n2 k2 => n1 = n2 ∧ ∀ v, mode_preset (k1 v) (k2 v)
  | Fail e1, Fail e2 => e1 = e2
  | _, _ => False
  end.
Proof.
  intros (c1 & r & ->)%option_like_shape Hname Hpre.
  rewrite !run_process_opts. cbn zeta. unfold long_name in Hname.
  destruct (partition_eq (String "-" (String c1 r))) as [name ev].
  cbn [fst] in Hname.
  repeat case_decide; try done.
  - destruct ev; [|split; [done|intros v]]; by apply mode_preset_store.
  - destruct ev; [done|]. by apply mode_preset_store.
  - by apply mode_preset_push.
  - apply mode_preset_recombine.
    destruct (has_char "h" (String c1 r)); [|done]. by apply mode_preset_store.
Qed.

Lemma run_mode_preset st2 rargs :
  omits_mode rargs →
  ∀ st1, mode_preset st1 st2 →
  match process_args_for_options run_parser st1 rargs,
        process_args_for_options run_parser st2 rargs with
  | inl e1, inl e2 => e1 = e2
  | inr (s1, r1), inr (s2, r2) => mode_preset s1 s2 ∧ r1 = r2
  | _, _ => False
  end.
Proof.
  pattern st2, rargs, (process_args_for_options run_parser st2 rargs).
  apply option_loop_ind; clear st2 rargs.
  - by intros st2 _ st1 Hpre.
  - intros st2 rest _ st1 Hpre. done.
  - intros st2 arg rest s2 Harg Hlike Hstep IH [Hname Hrest]%Forall_cons st1 Hpre.
    cbn [process_args_for_options].
    rewrite bool_decide_eq_false_2, Hlike by done.
    pose proof (run_step_mode_preset arg st1 st2 Hlike Hname Hpre) as Hs.
    rewrite Hstep in Hs.
    destruct (process_opts run_parser arg st1); [|done..]. by apply IH.
  - intros st2 arg name k v rest Harg Hlike Hstep IH [Hname Hrest]%Forall_cons st1 Hpre.
    apply Forall_cons in Hrest as [_ Hrest].
    cbn [process_args_for_options].
    rewrite bool_decide_eq_false_2, Hlike by done.
    pose proof (run_step_mode_preset arg st1 st2 Hlike Hname Hpre) as Hs.
    rewrite Hstep in Hs.
    destruct (process_opts run_parser arg st1) as [|name1 k1| |]; [done| |done..].
    destruct Hs as [_ Hs]. by apply IH.
  - intros st2 arg name k Harg Hlike Hstep [Hname _]%Forall_cons st1 Hpre.
    cbn [process_args_for_options].
    rewrite bool_decide_eq_false_2, Hlike by done.
    pose proof (run_step_mode_preset arg st1 st2 Hlike Hname Hpre) as Hs.
    rewrite Hstep in Hs.
    destruct (process_opts run_parser arg st1) as [|name1 k1| |]; [done| |done..].
    by destruct Hs as [-> _].
  - intros st2 arg name rest Harg Hlike Hstep _ st1 _.
    pose proof (run_step_effect arg st2 Hlike) as Heff. by rewrite Hstep in Heff.
  - intros st2 arg e rest Harg Hlike Hstep [Hname _]%Forall_cons st1 Hpre.
    cbn [process_args_for_options].
    rewrite bool_decide_eq_false_2, Hlike by done.
    pose proof (run_step_mode_preset arg st1 st2 Hlike Hname Hpre) as Hs.
    rewrite Hstep in Hs.
    destruct (process_opts run_parser arg st1); [done..|]. by subst.
  - intros st2 arg rest Harg Hlike Hinter IH [_ Hrest]%Forall_cons st1 Hpre.
    cbn [process_args_for_options].
    rewrite bool_decide_eq_false_2, Hlike, Hinter by done.
    apply IH; [done|]. by apply mode_preset_push.
  - pose proof run_parser_interspersed. congruence.
Qed.

End run_loop.

(** ** The [run] function *)
Section run_function.
Variable run_nextflow : string → string → list string → M unit.

(** The three ways through [run]: the GitHub repo goes to the launcher
    unchecked; any other path is looked up first, and goes to the launcher
    only when it is there. *)
Lemma run_cases main_path _mode kwargs w :
  run run_nextflow main_path _mode kwargs w =
  if decide (main_path = "CCBR/CRISPIN") then
    let '(r, w', t) := run_nextflow main_path _mode (nextflow_args kwargs) w in
    (r, w', EvRunNextflow main_path _mode (nextflow_args kwargs) :: t)
  else if path_exists w main_path then
    let '(r, w', t) := run_nextflow main_path _mode (nextflow_args kwargs) w in
    (r, w', EvExists main_path true
              :: EvRunNextflow main_path _mode (nextflow_args kwargs) :: t)
  else
    (Raised (FileNotFoundError (not_found_message main_path)), w,
     [EvExists main_path false]).
Proof.
  unfold run, call_run_nextflow, github_repo, mbind, M_bind, mret, M_ret,
    os_path_exists, emit, raise.
  case_decide as Hrepo.
  - rewrite bool_decide_eq_false_2 by auto.
    by destruct (run_nextflow _ _ _ w) as [[r w'] t].
  - rewrite bool_decide_eq_true_2 by auto.
    destruct (path_exists w main_path); simpl; [|done].
    by destruct (run_nextflow _ _ _ w) as [[r w'] t].
Qed.

End run_function.

(** ** Claims about the [run] function *)

(** C1. For every entry path that is not the sentinel and does not exist,
    [run] raises the path-not-found error, whose message ends in the
    offending path; the process exits with a status other than 0; the
    launcher is never entered and no child process is started: the only
    thing [run] did was the one existence test. *)
Theorem run_rejects_missing_path
    (run_nextflow : string → string → list string → M unit)
    (main_path _mode : string) (kwargs : Kwargs) (w : World) :
  main_path ≠ "CCBR/CRISPIN" →
  path_exists w main_path = false →
  outcome (run run_nextflow main_path _mode kwargs w)
    = Raised (FileNotFoundError
                ("Path to the crispin main.nf file not found: " +:+ main_path))
  ∧ exit_status (outcome (run run_nextflow main_path _mode kwargs w)) ≠ 0%Z
  ∧ trace (run run_nextflow main_path _mode kwargs w) = [EvExists main_path false]
  ∧ Forall (λ ev, ¬ launched ev) (trace (run run_nextflow main_path _mode kwargs w))
  ∧ final (run run_nextflow main_path _mode kwargs w) = w.
Proof.
  intros Hrepo Hmissing. rewrite run_cases, decide_False, Hmissing by done.
  split_and!; try done.
  repeat constructor. auto.
Qed.

Lemma run_rejects_missing_path_witness :
  outcome (run Sample.eager_launcher "pipelines/main.nf" "local"
             {| nextflow_args := ["-resume"] |} Sample.fresh)
  = Raised (FileNotFoundError
              "Path to the crispin main.nf file not found: pipelines/main.nf").
Proof.
  refine (proj1 (run_rejects_missing_path Sample.eager_launcher "pipelines/main.nf"
                   "local" {| nextflow_args := ["-resume"] |} Sample.fresh _ _)).
  - discriminate.
  - reflexivity.
Defined.

(** C2. For the sentinel ["CCBR/CRISPIN"] the first thing [run] does is to
    enter the launcher, with the sentinel as the entry path, unmodified:
    no existence test comes before, and what follows is the launcher's. *)
Theorem run_github_repo_skips_check
    (run_nextflow : string → string → list string → M unit)
    (_mode : string) (kwargs : Kwargs) (w : World) :
  run run_nextflow "CCBR/CRISPIN" _mode kwargs w =
  let '(r, w', t) := run_nextflow "CCBR/CRISPIN" _mode (nextflow_args kwargs) w in
  (r, w', EvRunNextflow "CCBR/CRISPIN" _mode (nextflow_args kwargs) :: t).
Proof. by rewrite run_cases, decide_True. Qed.

(** C8. The sentinel is recognised by exact string equality: for every other
    string, a different spelling of the sentinel among them, [run] begins
    with the existence test of that very string, rejects it when the test
    fails and enters the launcher with it when the test succeeds. *)
Theorem run_checks_every_other_path
    (run_nextflow : string → string → list string → M unit)
    (main_path _mode : string) (kwargs : Kwargs) (w : World) :
  main_path ≠ "CCBR/CRISPIN" →
  run run_nextflow main_path _mode kwargs w =
  if path_exists w main_path then
    let '(r, w', t) := run_nextflow main_path _mode (nextflow_args kwargs) w in
    (r, w', EvExists main_path true
              :: EvRunNextflow main_path _mode (nextflow_args kwargs) :: t)
  else
    (Raised (FileNotFoundError
               ("Path to the crispin main.nf file not found: " +:+ main_path)),
     w, [EvExists main_path false]).
Proof. intros Hrepo. by rewrite run_cases, decide_False. Qed.

Lemma run_checks_every_other_path_witness :
  run Sample.eager_launcher "ccbr/crispin" "local" {| nextflow_args := [] |} Sample.fresh
  = (Raised (FileNotFoundError
               "Path to the crispin main.nf file not found: ccbr/crispin"),
     Sample.fresh, [EvExists "ccbr/crispin" false]).
Proof.
  refine (run_checks_every_other_path Sample.eager_launcher "ccbr/crispin" "local"
            {| nextflow_args := [] |} Sample.fresh _).
  discriminate.
Defined.

(** ** Claims about the command line of [run] *)

(** The end-of-options marker [--] begins with a dash and is no declared
    option of [run], yet it is not among the arguments passed on: behind
    [run -- -resume] the launcher gets [-resume] alone. *)
Lemma run_drops_end_of_options_marker :
  String.prefix "-" "--" = true
  ∧ declared_long "--" = false
  ∧ parse_args run_parser ["--"; "-resume"] = inr (∅, ["-resume"])
  ∧ "--" ∉ ["-resume"].
Proof.
  split_and!; [reflexivity..|].
  rewrite elem_of_cons, elem_of_nil. by intros [|[]].
Qed.

(** A token with one dash that holds the letter [h] is read as a cluster of
    short options: the [h] is the help flag and the rest is put together
    again, so the help page is shown and the launcher is not entered. *)
Example run_help_flag_inside_cluster :
  parse_args run_parser ["-with-report"]
  = inr ({[ "help" := VTrue ]}, ["-wit-report"])
  ∧ ∀ run_nextflow,
      run_command Sample.nek_base run_nextflow ["-with-report"] Sample.fresh
      = (Raised (ClickExit 0), Sample.fresh, [EvHelp "run"]).
Proof. split; [reflexivity|]. intros run_nextflow. reflexivity. Qed.

(** ** The launcher and the child process *)
Section launcher.
Variable nek_base : string → string.
Variable nextflow : list string → World → option (Z * World).
Variable profile_of_mode : string → option string.

Lemma run_nextflow_cases nextfile_path mode nextflow_args w :
  Util.run_nextflow nextflow profile_of_mode nextfile_path mode nextflow_args w =
  match profile_of_mode mode with
  | None => (Raised (ValueError mode), w, [])
  | Some profile =>
      let argv := ["nextflow"; "run"; nextfile_path; "-profile"; profile]
                  ++ nextflow_args in
      match nextflow argv w with
      | Some (code, w') => (Raised (SystemExit code), w', [EvSpawn argv (Some code)])
      | None => (Raised (LaunchError "nextflow"), w, [EvSpawn argv None])
      end
  end.
Proof.
  unfold Util.run_nextflow, Util.spawn, mbind, M_bind, raise.
  destruct (profile_of_mode mode) as [profile|]; [|done].
  by destruct (nextflow _ w) as [[code w']|].
Qed.

(** A child started by [run] got the entry path, the profile of the mode
    and the arguments of [run], and settled how [run] ended. *)
Lemma run_spawn main_path _mode kwargs w argv status :
  EvSpawn argv status
    ∈ trace (Program.run nextflow profile_of_mode main_path _mode kwargs w) →
  ∃ profile,
    profile_of_mode _mode = Some profile
    ∧ argv = ["nextflow"; "run"; main_path; "-profile"; profile]
             ++ Main.nextflow_args kwargs
    ∧ outcome (Program.run nextflow profile_of_mode main_path _mode kwargs w)
      = match status with
        | Some code => Raised (SystemExit code)
        | None => Raised (LaunchError "nextflow")
        end.
Proof.
  unfold Program.run. rewrite run_cases, run_nextflow_cases.
  destruct (profile_of_mode _mode) as [profile|] eqn:Hprofile; cbn zeta.
  - destruct (nextflow _ w) as [[code w']|];
      repeat case_decide; destruct (path_exists w main_path); cbn [trace snd];
      rewrite ?elem_of_cons, ?elem_of_nil; intros Hev;
      destruct_or?; simplify_eq; eauto.
  - repeat case_decide; destruct (path_exists w main_path); cbn [trace snd];
      rewrite ?elem_of_cons, ?elem_of_nil; intros Hev;
      destruct_or?; simplify_eq.
Qed.

(** A child is started only by the [run] function, on a command line that
    parsed and did not ask for help. *)
Lemma run_command_spawn args w argv status :
  EvSpawn argv status
    ∈ trace (Program.run_command nek_base nextflow profile_of_mode args w) →
  ∃ o positional,
    parse_args run_parser args = inr (o, positional)
    ∧ flag_param o "help" = false
    ∧ Program.run_command nek_base nextflow profile_of_mode args w
      = Program.run nextflow profile_of_mode
          (str_param o "main_path" (nek_base "main.nf"))
          (str_param o "_mode" "local")
          {| Main.nextflow_args := positional |} w.
Proof.
  unfold Program.run_command, Program.run, run_command.
  destruct (parse_args run_parser args) as [e|[o positional]].
  - cbn. by rewrite elem_of_nil.
  - destruct (flag_param o "help") eqn:Hhelp.
    + change (trace (show_help "run" w)) with [EvHelp "run"].
      rewrite elem_of_cons, elem_of_nil. by intros [|].
    + eauto.
Qed.

End launcher.

(** ** Claims about the child process *)

(** C3. Whenever the command started the engine and the engine ended with a
    status, that status is the exit status of the program. *)
Theorem run_exit_status_is_the_child_status
    (nek_base : string → string)
    (nextflow : list string → World → option (Z * World))
    (profile_of_mode : string → option string)
    (args : list string) (w : World) (argv : list string) (code : Z) :
  EvSpawn argv (Some code)
    ∈ trace (Program.run_command nek_base nextflow profile_of_mode args w) →
  exit_status (outcome (Program.run_command nek_base nextflow profile_of_mode args w))
  = code.
Proof.
  intros Hev.
  destruct (run_command_spawn _ _ _ _ _ _ _ Hev) as (o & positional & _ & _ & Hrun).
  rewrite Hrun in Hev |- *.
  destruct (run_spawn _ _ _ _ _ _ _ _ Hev) as (profile & _ & _ & ->). done.
Qed.

Lemma run_exit_status_is_the_child_status_witness :
  exit_status (outcome (Program.run_command Sample.nek_base Sample.failing_engine
                          Sample.profile_of_mode ["--mode"; "slurm"] Sample.fresh))
  = 3%Z.
Proof.
  refine (run_exit_status_is_the_child_status Sample.nek_base Sample.failing_engine
            Sample.profile_of_mode ["--mode"; "slurm"] Sample.fresh
            ["nextflow"; "run"; "/opt/crispin/main.nf"; "-profile"; "slurm"] 3 _).
  vm_compute. do 2 apply list_elem_of_further. apply list_elem_of_here.
Defined.

(** ** Copying the templates *)
Section templates.

Lemma bind_returned {A B} (m : M A) (f : A → M B) w a w1 t1 :
  m w = (Returned a, w1, t1) →
  (m ≫= f) w = let '(r, w2, t2) := f a w1 in (r, w2, t1 ++ t2).
Proof. unfold mbind, M_bind. by intros ->. Qed.

Lemma bind_returned_inv {A B} (m : M A) (f : A → M B) w b w2 t :
  (m ≫= f) w = (Returned b, w2, t) →
  ∃ a w1 t1 t2,
    m w = (Returned a, w1, t1) ∧ f a w1 = (Returned b, w2, t2) ∧ t = t1 ++ t2.
Proof.
  unfold mbind, M_bind. destruct (m w) as [[[a|e] w1] t1]; [|done].
  destruct (f a w1) as [[r w2'] t2] eqn:Hf. intros [= -> -> <-]. eauto 10.
Qed.

Lemma copy_template_cases path w :
  Util.copy_template path w =
  match bundle w !! strip_slash path with
  | None => (Raised (FileNotFoundError path), w, [])
  | Some template =>
      if writable w then
        (Returned tt,
         set_fs (match template with
                 | File content => insert (strip_slash path) (File content)
                 | Dir => λ f, filter (λ kv, Util.under (strip_slash path) kv.1)
                                 (bundle w) ∪ f
                 end) w,
         [EvCopy path])
      else (Raised (PermissionError path), w, [])
  end.
Proof.
  unfold Util.copy_template, mbind, M_bind, get_world, raise, emit, modify_fs.
  destruct (bundle w !! strip_slash path) as [[content|]|]; [| |done];
    by destruct (writable w).
Qed.

Lemma under_refl name : Util.under name name = true.
Proof. unfold Util.under. by rewrite bool_decide_eq_true_2. Qed.

(** One template copied: the bundle and the permission are as before, the
    template is there as the bundle holds it, whatever already agreed
    with the bundle still does, and nothing outside the template's name
    has changed. *)
Lemma copy_template_returned path w w' t :
  Util.copy_template path w = (Returned tt, w', t) →
  bundle w' = bundle w ∧ writable w' = writable w ∧ writable w = true
  ∧ t = [EvCopy path]
  ∧ is_Some (bundle w !! strip_slash path)
  ∧ fs w' !! strip_slash path = bundle w !! strip_slash path
  ∧ (∀ k, is_Some (bundle w !! k) → fs w !! k = bundle w !! k →
          fs w' !! k = bundle w !! k)
  ∧ (∀ k, Util.under (strip_slash path) k = false → fs w' !! k = fs w !! k).
Proof.
  rewrite copy_template_cases.
  destruct (bundle w !! strip_slash path) as [template|] eqn:Hb; [|done].
  destruct (writable w) eqn:Hw; [|done]. intros [= <- <-].
  split_and!; try done.
  - destruct template as [content|]; cbn.
    + by rewrite lookup_insert_eq.
    + erewrite lookup_union_Some_l; [done|].
      apply map_lookup_filter_Some. by rewrite under_refl.
  - intros k [v Hv] Hk. destruct template as [content|]; cbn.
    + destruct (decide (strip_slash path = k)) as [<-|Hne].
      * by rewrite lookup_insert_eq.
      * by rewrite lookup_insert_ne.
    + destruct (Util.under (strip_slash path) k) eqn:Hu.
      * erewrite lookup_union_Some_l; [done|].
        apply map_lookup_filter_Some. split; [done|].
        by apply Is_true_true_2.
      * rewrite lookup_union_r; [done|].
        apply map_lookup_filter_None. right. intros v' _.
        by apply Is_true_false_2.
  - intros k Hu. destruct template as [content|]; cbn.
    + apply lookup_insert_ne. intros <-. by rewrite under_refl in Hu.
    + apply lookup_union_r, map_lookup_filter_None. right. intros v' _.
      by apply Is_true_false_2.
Qed.

Lemma copy_template_succeeds path w :
  writable w = true → is_Some (bundle w !! strip_slash path) →
  ∃ w', Util.copy_template path w = (Returned tt, w', [EvCopy path]).
Proof.
  intros Hw [template Hb]. rewrite copy_template_cases, Hb, Hw. eauto.
Qed.

Lemma copy_config_returned config_paths w w' t :
  Util.copy_config config_paths w = (Returned tt, w', t) →
  bundle w' = bundle w ∧ writable w' = writable w
  ∧ (config_paths ≠ [] → writable w = true)
  ∧ t = EvCopy <$> config_paths
  ∧ Forall (λ path, is_Some (bundle w !! strip_slash path)
                    ∧ fs w' !! strip_slash path = bundle w !! strip_slash path)
           config_paths
  ∧ (∀ k, is_Some (bundle w !! k) → fs w !! k = bundle w !! k →
          fs w' !! k = bundle w !! k)
  ∧ (∀ k, Forall (λ path, Util.under (strip_slash path) k = false) config_paths →
          fs w' !! k = fs w !! k).
Proof.
  revert w t. induction config_paths as [|path rest IH]; intros w t.
  - intros [= <- <-]. split_and!; done.
  - cbn [Util.copy_config]. intros Hrun.
    apply bind_returned_inv in Hrun as ([] & w1 & t1 & t2 & Hone & Hrest & ->).
    apply copy_template_returned in Hone
      as (Hb1 & Hw1 & Hw & -> & Hin & Hthere & Hagree & Hframe).
    apply IH in Hrest as (Hb & Hw' & _ & -> & Hall & Hagree' & Hframe').
    rewrite Hb1 in *.
    split_and!; try congruence; try done.
    + constructor; [split; [done|]|done]. apply Hagree'; [done|congruence].
    + intros k Hk Hfs. apply Hagree'; [done|]. by apply Hagree.
    + intros k [Hu Hrest]%Forall_cons. rewrite Hframe' by done. by apply Hframe.
Qed.

Lemma copy_config_succeeds config_paths w :
  writable w = true →
  Forall (λ path, is_Some (bundle w !! strip_slash path)) config_paths →
  ∃ w', Util.copy_config config_paths w = (Returned tt, w', EvCopy <$> config_paths).
Proof.
  intros Hw Hall. revert w Hw Hall.
  induction config_paths as [|path rest IH]; intros w Hw Hall.
  - by exists w.
  - apply Forall_cons in Hall as [Hin Hrest].
    destruct (copy_template_succeeds path w Hw Hin) as [w1 Hone].
    pose proof (copy_template_returned _ _ _ _ Hone) as (Hb1 & Hw1 & _).
    destruct (IH w1) as [w' Hrun]; [congruence|by rewrite Hb1|].
    exists w'. cbn [Util.copy_config]. erewrite bind_returned by done.
    by rewrite Hrun.
Qed.

End templates.

(** ** The [init] function *)
Section init_function.

Lemma os_mkdir_cases path w :
  os_mkdir path w =
  match fs w !! strip_slash path with
  | Some _ => (Raised (FileExistsError path), w, [EvMkdir path])
  | None =>
      if writable w
      then (Returned tt, set_fs (insert (strip_slash path) Dir) w, [EvMkdir path])
      else (Raised (PermissionError path), w, [EvMkdir path])
  end.
Proof.
  unfold os_mkdir, mbind, M_bind, get_world, raise, emit, modify_fs.
  destruct (fs w !! strip_slash path); [done|]. by destruct (writable w).
Qed.

(** [init] behind a copy that went through: one existence test of [log/],
    and one [mkdir] exactly when the test failed. *)
Lemma init_after_copy (copy_config : list string → M unit) w w1 t :
  copy_config ["nextflow.config"; "conf/"; "assets/"] w = (Returned tt, w1, t) →
  Main.init copy_config w =
  if path_exists w1 "log/" then (Returned tt, w1, t ++ [EvExists "log/" true])
  else let '(r, w2, t2) := os_mkdir "log/" w1 in
       (r, w2, t ++ EvExists "log/" false :: t2).
Proof.
  intros Hcopy. unfold Main.init. erewrite bind_returned by done.
  unfold mbind, M_bind, os_path_exists, mret, M_ret.
  destruct (path_exists w1 "log/"); cbn [negb]; [done|].
  by destruct (os_mkdir "log/" w1) as [[r w2] t2].
Qed.

Lemma init_returned_inv (copy_config : list string → M unit) w w' t :
  Main.init copy_config w = (Returned tt, w', t) →
  ∃ w1 t1,
    copy_config ["nextflow.config"; "conf/"; "assets/"] w = (Returned tt, w1, t1).
Proof.
  unfold Main.init. intros Hrun.
  apply bind_returned_inv in Hrun as ([] & w1 & t1 & t2 & Hcopy & _). eauto.
Qed.

Lemma log_exists_iff w : path_exists w "log/" = true ↔ fs w !! "log" = Some Dir.
Proof.
  unfold path_exists. cbn [strip_slash]. simpl.
  destruct (fs w !! "log") as [[content|]|]; naive_solver.
Qed.

(** The whole of a successful [init]: the three templates copied, [log]
    tested and, when it was not there, made. *)
Lemma init_returned w w' t :
  Program.init w = (Returned tt, w', t) →
  ∃ w1,
    Util.copy_config ["nextflow.config"; "conf/"; "assets/"] w
      = (Returned tt, w1, EvCopy <$> ["nextflow.config"; "conf/"; "assets/"])
    ∧ ((path_exists w1 "log/" = true ∧ w' = w1
        ∧ t = (EvCopy <$> ["nextflow.config"; "conf/"; "assets/"])
              ++ [EvExists "log/" true])
       ∨ (path_exists w1 "log/" = false ∧ fs w1 !! "log" = None
          ∧ w' = set_fs (insert "log" Dir) w1
          ∧ t = (EvCopy <$> ["nextflow.config"; "conf/"; "assets/"])
                ++ [EvExists "log/" false; EvMkdir "log/"])).
Proof.
  intros Hrun. unfold Program.init in *.
  destruct (init_returned_inv _ _ _ _ Hrun) as (w1 & t1 & Hcopy).
  pose proof (copy_config_returned _ _ _ _ Hcopy) as (_ & Hw1 & Hw & -> & _).
  rewrite (init_after_copy _ _ _ _ Hcopy) in Hrun.
  exists w1. split; [done|].
  destruct (path_exists w1 "log/") eqn:Hlog.
  - left. by simplify_eq.
  - right. rewrite os_mkdir_cases in Hrun. change (strip_slash "log/") with "log" in Hrun.
    destruct (fs w1 !! "log") eqn:Hfs; [done|].
    destruct (writable w1); by simplify_eq.
Qed.

End init_function.

(** ** Claims about [init] *)

(** C5. A successful [init] leaves the four documented paths behind: the
    three templates as the bundle holds them and the directory [log]. Every
    entry of the working directory that changed is one of the four or lies
    below one of the templates; the bundle itself is untouched. *)
Theorem init_creates_the_documented_paths (w w' : World) (t : list event) :
  Program.init w = (Returned tt, w', t) →
  Forall (λ name, is_Some (bundle w !! name) ∧ fs w' !! name = bundle w !! name)
         ["nextflow.config"; "conf"; "assets"]
  ∧ fs w' !! "log" = Some Dir
  ∧ (∀ k, fs w' !! k ≠ fs w !! k →
          Util.under "nextflow.config" k = true ∨ Util.under "conf" k = true
          ∨ Util.under "assets" k = true ∨ k = "log")
  ∧ bundle w' = bundle w.
Proof.
  intros (w1 & Hcopy & Hlog)%init_returned.
  apply copy_config_returned in Hcopy as (Hb & _ & _ & _ & Hall & _ & Hframe).
  assert (∀ k, fs w1 !! k ≠ fs w !! k →
               Util.under "nextflow.config" k = true ∨ Util.under "conf" k = true
               ∨ Util.under "assets" k = true) as Hchanged.
  { intros k Hk.
    destruct (Util.under "nextflow.config" k) eqn:H1; [by left|].
    destruct (Util.under "conf" k) eqn:H2; [by right; left|].
    destruct (Util.under "assets" k) eqn:H3; [by right; right|].
    destruct Hk. apply Hframe. by repeat constructor. }
  assert (Forall (λ name, is_Some (bundle w !! name)
                          ∧ fs w1 !! name = bundle w !! name)
                 ["nextflow.config"; "conf"; "assets"]) as Htemplates.
  { rewrite !Forall_cons in Hall |- *.
    destruct Hall as ([??] & [??] & [??] & _).
    split_and!; assumption || done. }
  destruct Hlog as [(Hthere & -> & _)|(_ & _ & -> & _)].
  - split_and!; [done|by apply log_exists_iff| |done].
    intros k Hk. destruct (Hchanged k Hk) as [?|[?|?]]; auto.
  - split_and!; [| | |done].
    + rewrite !Forall_cons in Htemplates |- *. cbn [fs set_fs].
      rewrite !lookup_insert_ne by done.
      destruct Htemplates as ([??] & [??] & [??] & _).
      split_and!; assumption || done.
    + cbn [fs set_fs]. by rewrite lookup_insert_eq.
    + intros k Hk. cbn [fs set_fs] in Hk.
      destruct (decide (k = "log")) as [->|Hne]; [auto|].
      rewrite lookup_insert_ne in Hk by done.
      destruct (Hchanged k Hk) as [?|[?|?]]; auto.
Qed.

Lemma init_creates_the_documented_paths_witness :
  fs (final (Program.init Sample.fresh)) !! "log" = Some Dir.
Proof.
  refine (proj1 (proj2 (init_creates_the_documented_paths Sample.fresh
                          (final (Program.init Sample.fresh))
                          (trace (Program.init Sample.fresh)) _))).
  vm_compute. reflexivity.
Defined.

(** C6. In a successful [init] the directory [log] is made exactly when it
    was not there; a second [init] right after succeeds as well, finds
    [log] in place and makes no directory. *)
Theorem init_makes_log_only_when_absent (w w1 : World) (t1 : list event) :
  Program.init w = (Returned tt, w1, t1) →
  (EvMkdir "log/" ∈ t1 ↔ path_exists w "log/" = false)
  ∧ ∃ w2,
      Program.init w1
      = (Returned tt, w2,
         (EvCopy <$> ["nextflow.config"; "conf/"; "assets/"])
         ++ [EvExists "log/" true]).
Proof.
  intros (wc & Hcopy & Hlog)%init_returned.
  pose proof (copy_config_returned _ _ _ _ Hcopy)
    as (Hb & Hw & Hwritable & _ & Hall & _ & Hframe).
  assert (fs wc !! "log" = fs w !! "log") as Hsame.
  { apply Hframe. by repeat constructor. }
  assert (path_exists wc "log/" = path_exists w "log/") as Hexists.
  { unfold path_exists. change (strip_slash "log/") with "log". by rewrite Hsame. }
  assert (fs w1 !! "log" = Some Dir ∧ bundle w1 = bundle w ∧ writable w1 = true)
    as (Hdir & Hb1 & Hw1).
  { destruct Hlog as [(Hthere & -> & _)|(_ & _ & -> & _)].
    - split_and!; [by apply log_exists_iff|done|].
      rewrite Hw. by apply Hwritable.
    - cbn. split_and!; [by rewrite lookup_insert_eq|done|].
      rewrite Hw. by apply Hwritable. }
  split.
  - rewrite <- Hexists.
    destruct Hlog as [(Hthere & _ & ->)|(Habsent & _ & _ & ->)].
    + rewrite Hthere. split; [|done]. cbn.
      rewrite !elem_of_cons, elem_of_nil. intros [|[|[|[|[]]]]]; discriminate.
    + rewrite Habsent. split; [done|]. intros _. cbn.
      rewrite !elem_of_cons. auto 10.
  - destruct (copy_config_succeeds ["nextflow.config"; "conf/"; "assets/"] w1 Hw1)
      as [w2 Hcopy2].
    { rewrite Hb1. eapply Forall_impl; [exact Hall|]. by intros path [? _]. }
    exists w2. unfold Program.init. rewrite (init_after_copy _ _ _ _ Hcopy2).
    apply copy_config_returned in Hcopy2 as (_ & _ & _ & _ & _ & _ & Hframe2).
    assert (path_exists w2 "log/" = true) as ->; [|done].
    apply log_exists_iff. rewrite Hframe2; [done|]. by repeat constructor.
Qed.

Lemma init_makes_log_only_when_absent_witness :
  EvMkdir "log/" ∈ trace (Program.init Sample.fresh)
  ↔ path_exists Sample.fresh "log/" = false.
Proof.
  refine (proj1 (init_makes_log_only_when_absent Sample.fresh
                   (final (Program.init Sample.fresh))
                   (trace (Program.init Sample.fresh)) _)).
  vm_compute. reflexivity.
Defined.

(** ** Claims about the command group *)

(** C7. The help page of the group lists the two commands in the order
    they were registered, [run] and then [init], which is not the
    alphabetical order a plain [click.Group] would give. *)
Theorem cli_lists_commands_in_registration_order
    (nek_base : string → string)
    (nextflow : list string → World → option (Z * World))
    (profile_of_mode : string → option string) :
  (format_commands (Program.cli nek_base nextflow profile_of_mode)).*1
    = ["run"; "init"]
  ∧ list_commands (cls (Program.cli nek_base nextflow profile_of_mode))
      (commands (Program.cli nek_base nextflow profile_of_mode))
    = ["run"; "init"]
  ∧ list_commands GroupCls (commands (Program.cli nek_base nextflow profile_of_mode))
    = ["init"; "run"].
Proof. split_and!; reflexivity. Qed.


(** ** More on the option loop *)
Section option_loop_split.
Variable p : OptionParser.

(** A prefix without the marker [--] that was read to its end leaves the
    loop in a state from which the rest is read as if it came first. *)
Lemma process_args_split post :
  ∀ st0 pre st,
    "--" ∉ pre →
    process_args_for_options p st0 pre = inr (st, []) →
    process_args_for_options p st0 (pre ++ post)
    = process_args_for_options p st post.
Proof.
  intros st0 pre.
  pattern st0, pre, (process_args_for_options p st0 pre).
  apply option_loop_ind; clear st0 pre.
  - by intros st0 st _ [= <-].
  - intros st0 rest st Hno. destruct Hno. apply list_elem_of_here.
  - intros st0 arg rest st' Harg Hlike Hstep IH st Hno Hrun.
    cbn [app process_args_for_options].
    rewrite bool_decide_eq_false_2, Hlike, Hstep by done.
    apply IH; [|done]. intros Hin. apply Hno. by apply list_elem_of_further.
  - intros st0 arg name k v rest Harg Hlike Hstep IH st Hno Hrun.
    cbn [app process_args_for_options].
    rewrite bool_decide_eq_false_2, Hlike, Hstep by done.
    apply IH; [|done]. intros Hin. apply Hno. by do 2 apply list_elem_of_further.
  - done.
  - done.
  - done.
  - intros st0 arg rest Harg Hlike Hinter IH st Hno Hrun.
    cbn [app process_args_for_options].
    rewrite bool_decide_eq_false_2, Hlike, Hinter by done.
    apply IH; [|done]. intros Hin. apply Hno. by apply list_elem_of_further.
  - intros st0 arg rest Harg Hlike Hinter st _ [=].
Qed.

End option_loop_split.

(** ** More on the option loop of [run] *)
Section run_loop_more.

Lemma run_keeps_plain st arg rest :
  begins_with_dash arg = false →
  process_args_for_options run_parser st (arg :: rest)
  = process_args_for_options run_parser (push_larg arg st) rest.
Proof.
  intros Harg. cbn [process_args_for_options].
  rewrite run_option_like, run_parser_interspersed.
  destruct arg as [|c0 [|c1 r]]; cbn [begins_with_dash] in Harg.
  - by rewrite bool_decide_eq_false_2.
  - by rewrite bool_decide_eq_false_2.
  - rewrite Harg. rewrite bool_decide_eq_false_2; [done|].
    intros [= -> _]. by rewrite bool_decide_eq_true_2 in Harg.
Qed.

Lemma run_keeps_forwarded st arg rest :
  forwarded arg = true →
  process_args_for_options run_parser st (arg :: rest)
  = process_args_for_options run_parser (push_larg arg st) rest.
Proof.
  unfold forwarded. intros [Hplain|Hun]%orb_true_iff.
  - apply run_keeps_plain. by apply negb_true_iff.
  - by apply run_keeps_unrecognized.
Qed.

Lemma run_keeps_all_forwarded ts :
  Forall (λ arg, forwarded arg = true) ts →
  ∀ st, process_args_for_options run_parser st ts
        = inr ({| opts := opts st; largs := largs st ++ ts |}, []).
Proof.
  induction 1 as [|arg ts Harg _ IH]; intros st.
  - simpl. rewrite app_nil_r. by destruct st.
  - rewrite run_keeps_forwarded, IH by done.
    simpl. by rewrite <- app_assoc.
Qed.

(** The option token of a value and the value behind it. *)
Lemma run_reads_value st o name v rest :
  (o = main_option ∧ name = "--main") ∨ (o = mode_option ∧ name = "--mode") →
  process_args_for_options run_parser st (name :: v :: rest)
  = process_args_for_options run_parser (process o (VStr v) st) rest.
Proof.
  intros [[-> ->]|[-> ->]]; cbn [process_args_for_options];
    by rewrite run_option_like, run_process_opts.
Qed.

Lemma partition_eq_attached name v :
  has_char "=" name = false →
  partition_eq (name +:+ String "=" v) = (name, Some v).
Proof.
  induction name as [|c name IH]; intros Hname.
  - done.
  - cbn [has_char] in Hname. apply orb_false_iff in Hname as [Hc Hname].
    rewrite app_cons. cbn [partition_eq]. rewrite Hc, IH by done. done.
Qed.

Lemma run_reads_attached_value st o name v rest :
  (o = main_option ∧ name = "--main") ∨ (o = mode_option ∧ name = "--mode") →
  process_args_for_options run_parser st ((name +:+ String "=" v) :: rest)
  = process_args_for_options run_parser (process o (VStr v) st) rest.
Proof.
  intros Ho.
  assert (partition_eq (name +:+ String "=" v) = (name, Some v)) as Hpart.
  { apply partition_eq_attached. by destruct Ho as [[_ ->]|[_ ->]]. }
  assert (∃ c r, name +:+ String "=" v = String "-" (String "-" (String c r)))
    as (c & r & Hshape).
  { destruct Ho as [[_ ->]|[_ ->]]; eauto. }
  set (tok := name +:+ String "=" v) in *. clearbody tok. subst tok.
  cbn [process_args_for_options].
  rewrite run_option_like, bool_decide_eq_false_2 by discriminate.
  rewrite (bool_decide_eq_true_2 ("-"%char = "-"%char)) by done.
  rewrite run_process_opts. cbn zeta. rewrite Hpart.
  by destruct Ho as [[-> ->]|[-> ->]].
Qed.

(** The errors the option loop of [run] can end in. *)
Lemma run_loop_errors st rargs e :
  process_args_for_options run_parser st rargs = inl e →
  e = BadOptionUsage "--main" (requires_argument "--main")
  ∨ e = BadOptionUsage "--mode" (requires_argument "--mode")
  ∨ e = BadOptionUsage "--help" (does_not_take_value "--help").
Proof.
  revert e.
  pattern st, rargs, (process_args_for_options run_parser st rargs).
  apply option_loop_ind; clear st rargs; try done.
  - intros st arg name k Harg (c1 & r & ->)%option_like_shape Hstep e [= <-].
    rewrite run_process_opts in Hstep. cbn zeta in Hstep.
    destruct (partition_eq (String "-" (String c1 r))) as [name' ev].
    repeat case_decide; destruct ev; simplify_eq; auto.
  - intros st arg name rest Harg Hlike Hstep e _.
    pose proof (run_step_effect arg st Hlike) as Heff. by rewrite Hstep in Heff.
  - intros st arg e0 rest Harg (c1 & r & ->)%option_like_shape Hstep e [= <-].
    rewrite run_process_opts in Hstep. cbn zeta in Hstep.
    destruct (partition_eq (String "-" (String c1 r))) as [name' ev].
    repeat case_decide; destruct ev; simplify_eq; auto.
Qed.

(** A token that asks for help sets the flag. *)
Lemma run_asks_help st arg rest :
  asks_help arg = true →
  ∃ st', help_seen st'
         ∧ process_args_for_options run_parser st (arg :: rest)
           = process_args_for_options run_parser st' rest.
Proof.
  unfold asks_help. intros [->%bool_decide_eq_true|Harg]%orb_true_iff.
  - eexists. split; [apply (help_seen_help st)|].
    cbn [process_args_for_options]. by rewrite run_option_like, run_process_opts.
  - destruct arg as [|c0 [|c1 r]]; [done..|].
    apply andb_true_iff in Harg as [[->%bool_decide_eq_true Hc1]%andb_true_iff Hh].
    apply negb_true_iff, bool_decide_eq_false in Hc1.
    eexists (recombine "-" _ (process (help_option ["-h"; "--help"]) VTrue st)).
    split; [apply help_seen_recombine, help_seen_help|].
    cbn [process_args_for_options].
    rewrite run_option_like, (bool_decide_eq_true_2 ("-"%char = "-"%char)) by done.
    rewrite bool_decide_eq_false_2 by congruence.
    rewrite run_process_opts. cbn zeta.
    pose proof (single_dash_long_name c1 r Hc1) as Hdecl.
    apply undeclared_long_name in Hdecl as (? & ? & ?).
    unfold long_name in *.
    destruct (partition_eq (String "-" (String c1 r))) as [name v].
    cbn [fst] in *. rewrite !decide_False by done. by rewrite Hh.
Qed.

End run_loop_more.

(** ** The command line of [run], piece by piece *)
Section run_command_more.
Variable nek_base : string → string.
Variable run_nextflow : string → string → list string → M unit.

Lemma run_command_parsed args :
  run_command nek_base run_nextflow args
  = run_parsed nek_base run_nextflow
      (process_args_for_options run_parser empty_state args).
Proof.
  unfold run_command, parse_args, run_parsed.
  by destruct (process_args_for_options run_parser empty_state args) as [e|[st r]].
Qed.

Lemma run_command_split pre st post :
  "--" ∉ pre →
  process_args_for_options run_parser empty_state pre = inr (st, []) →
  run_command nek_base run_nextflow (pre ++ post)
  = run_parsed nek_base run_nextflow
      (process_args_for_options run_parser st post).
Proof.
  intros Hno Hpre. rewrite run_command_parsed.
  by rewrite (process_args_split run_parser post empty_state pre st).
Qed.

Lemma flag_param_help_seen st :
  flag_param (opts st) "help" = true ↔ help_seen st.
Proof. unfold flag_param, help_seen. apply bool_decide_eq_true. Qed.

Lemma flag_param_not_help_seen st :
  ¬ help_seen st → flag_param (opts st) "help" = false.
Proof. unfold flag_param, help_seen. apply bool_decide_eq_false_2. Qed.

End run_command_more.

Ltac not_a_member :=
  rewrite ?elem_of_cons, elem_of_nil;
  repeat (let H := fresh in intros [H|H]; [discriminate H|revert H]);
  intros [].

(** ** Further properties of the command line of [run] *)

(** X1. A value may be attached to its option with an equals sign or follow
    it as the next token: behind any options read to their end, [--main=V]
    and [--main V] give the same run, and so do [--mode=V] and [--mode V],
    for every [V]. *)
Theorem run_attached_value_form
    (nek_base : string → string)
    (run_nextflow : string → string → list string → M unit)
    (pre : list string) (st : ParsingState) (v : string) (rest : list string)
    (w : World) :
  "--" ∉ pre →
  process_args_for_options run_parser empty_state pre = inr (st, []) →
  run_command nek_base run_nextflow (pre ++ ("--main=" +:+ v) :: rest) w
  = run_command nek_base run_nextflow (pre ++ "--main" :: v :: rest) w
  ∧ run_command nek_base run_nextflow (pre ++ ("--mode=" +:+ v) :: rest) w
    = run_command nek_base run_nextflow (pre ++ "--mode" :: v :: rest) w.
Proof.
  intros Hno Hpre. rewrite !(run_command_split _ _ pre st) by done.
  change ("--main=" +:+ v) with ("--main" +:+ String "=" v).
  change ("--mode=" +:+ v) with ("--mode" +:+ String "=" v).
  rewrite (run_reads_attached_value st main_option), (run_reads_value st main_option)
    by auto.
  rewrite (run_reads_attached_value st mode_option), (run_reads_value st mode_option)
    by auto.
  done.
Qed.

Lemma run_attached_value_form_witness :
  run_command Sample.nek_base Sample.eager_launcher
    (["samples.csv"; "-resume"] ++ ["--main=pipelines/main.nf"; "x"]) Sample.fresh
  = run_command Sample.nek_base Sample.eager_launcher
      (["samples.csv"; "-resume"] ++ ["--main"; "pipelines/main.nf"; "x"]) Sample.fresh.
Proof.
  refine (proj1 (run_attached_value_form Sample.nek_base Sample.eager_launcher
                   ["samples.csv"; "-resume"]
                   {| opts := ∅; largs := ["samples.csv"; "-resume"] |}
                   "pipelines/main.nf" ["x"] Sample.fresh _ _)).
  - not_a_member.
  - reflexivity.
Defined.

(** X2. [--main] may stand anywhere in front of the marker [--], also
    behind pass-through arguments, and the last one given is the one that
    counts: its value, whatever it looks like, is the entry path handed to
    [run]; the arguments kept before and the forwarded tokens behind it are
    passed on in order. *)
Theorem run_last_main_counts
    (nek_base : string → string)
    (run_nextflow : string → string → list string → M unit)
    (pre : list string) (st : ParsingState) (v : string) (ts : list string)
    (w : World) :
  "--" ∉ pre →
  process_args_for_options run_parser empty_state pre = inr (st, []) →
  ¬ help_seen st →
  Forall (λ arg, forwarded arg = true) ts →
  run_command nek_base run_nextflow (pre ++ "--main" :: v :: ts) w
  = run run_nextflow v (str_param (opts st) "_mode" "local")
      {| nextflow_args := largs st ++ ts |} w.
Proof.
  intros Hno Hpre Hhelp Hts. rewrite (run_command_split _ _ pre st) by done.
  rewrite (run_reads_value st main_option) by auto.
  rewrite run_keeps_all_forwarded by done.
  unfold run_parsed. rewrite flag_param_not_help_seen.
  2:{ unfold help_seen in *. cbn. by rewrite lookup_insert_ne. }
  cbn [opts largs process dest main_option]. unfold str_param.
  rewrite lookup_insert_eq, lookup_insert_ne by done.
  by rewrite app_nil_r.
Qed.

Lemma run_last_main_counts_witness :
  run_command Sample.nek_base Sample.eager_launcher
    (["--main"; "old.nf"; "samples.csv"] ++ ["--main"; "--new"; "-resume"])
    Sample.fresh
  = run Sample.eager_launcher "--new" "local"
      {| nextflow_args := ["samples.csv"; "-resume"] |} Sample.fresh.
Proof.
  refine (run_last_main_counts Sample.nek_base Sample.eager_launcher
            ["--main"; "old.nf"; "samples.csv"]
            {| opts := {[ "main_path" := VStr "old.nf" ]}; largs := ["samples.csv"] |}
            "--new" ["-resume"] Sample.fresh _ _ _ _).
  - not_a_member.
  - reflexivity.
  - discriminate.
  - repeat constructor.
Defined.

(** X3. The command line does not validate the mode: whatever token follows
    [--mode] is handed to [run], and by [run] to the launcher, as the mode,
    replacing any mode given before. *)
Theorem run_mode_is_not_validated
    (nek_base : string → string)
    (run_nextflow : string → string → list string → M unit)
    (pre : list string) (st : ParsingState) (m : string) (ts : list string)
    (w : World) :
  "--" ∉ pre →
  process_args_for_options run_parser empty_state pre = inr (st, []) →
  ¬ help_seen st →
  Forall (λ arg, forwarded arg = true) ts →
  run_command nek_base run_nextflow (pre ++ "--mode" :: m :: ts) w
  = run run_nextflow (str_param (opts st) "main_path" (nek_base "main.nf")) m
      {| nextflow_args := largs st ++ ts |} w.
Proof.
  intros Hno Hpre Hhelp Hts. rewrite (run_command_split _ _ pre st) by done.
  rewrite (run_reads_value st mode_option) by auto.
  rewrite run_keeps_all_forwarded by done.
  unfold run_parsed. rewrite flag_param_not_help_seen.
  2:{ unfold help_seen in *. cbn. by rewrite lookup_insert_ne. }
  cbn [opts largs process dest mode_option]. unfold str_param.
  rewrite lookup_insert_eq, lookup_insert_ne by done.
  by rewrite app_nil_r.
Qed.

Lemma run_mode_is_not_validated_witness :
  run_command Sample.nek_base Sample.eager_launcher
    (["--mode"; "slurm"] ++ ["--mode"; "no such mode"; "samples.csv"]) Sample.fresh
  = run Sample.eager_launcher "/opt/crispin/main.nf" "no such mode"
      {| nextflow_args := ["samples.csv"] |} Sample.fresh.
Proof.
  refine (run_mode_is_not_validated Sample.nek_base Sample.eager_launcher
            ["--mode"; "slurm"]
            {| opts := {[ "_mode" := VStr "slurm" ]}; largs := [] |}
            "no such mode" ["samples.csv"] Sample.fresh _ _ _ _).
  - not_a_member.
  - reflexivity.
  - discriminate.
  - repeat constructor.
Defined.

(** X4. [--main] or [--mode] as the last token, with no value behind it, is
    a usage error: the function [run] is not called, nothing is looked up,
    nothing is launched, and the exit status is 2. *)
Theorem run_option_without_value
    (nek_base : string → string)
    (run_nextflow : string → string → list string → M unit)
    (pre : list string) (st : ParsingState) (name : string) (w : World) :
  "--" ∉ pre →
  process_args_for_options run_parser empty_state pre = inr (st, []) →
  name = "--main" ∨ name = "--mode" →
  run_command nek_base run_nextflow (pre ++ [name]) w
  = (Raised (UsageError ("Option '" +:+ name +:+ "' requires an argument.")), w, [])
  ∧ exit_status (outcome (run_command nek_base run_nextflow (pre ++ [name]) w)) = 2%Z.
Proof.
  intros Hno Hpre Hname. rewrite (run_command_split _ _ pre st) by done.
  assert (process_args_for_options run_parser st [name]
          = inl (BadOptionUsage name (requires_argument name))) as ->.
  { cbn [process_args_for_options].
    destruct Hname as [-> | ->]; by rewrite run_option_like, run_process_opts. }
  done.
Qed.

Lemma run_option_without_value_witness :
  run_command Sample.nek_base Sample.eager_launcher
    (["samples.csv"] ++ ["--mode"]) Sample.fresh
  = (Raised (UsageError "Option '--mode' requires an argument."), Sample.fresh, []).
Proof.
  refine (proj1 (run_option_without_value Sample.nek_base Sample.eager_launcher
                   ["samples.csv"] {| opts := ∅; largs := ["samples.csv"] |}
                   "--mode" Sample.fresh _ _ _)).
  - not_a_member.
  - reflexivity.
  - by right.
Defined.

(** X5. Help wins: once [--help], [-h] or any one-dash token holding the
    letter [h] is read as an option, the function [run] is never called,
    whatever follows. The command shows its help page and exits with 0,
    unless a later token is a usage error; either way the world is as it
    was. *)
Theorem run_help_wins
    (nek_base : string → string)
    (run_nextflow : string → string → list string → M unit)
    (pre : list string) (st : ParsingState) (tok : string) (post : list string)
    (w : World) :
  "--" ∉ pre →
  process_args_for_options run_parser empty_state pre = inr (st, []) →
  asks_help tok = true →
  run_command nek_base run_nextflow (pre ++ tok :: post) w
  = (Raised (ClickExit 0), w, [EvHelp "run"])
  ∨ ∃ msg, run_command nek_base run_nextflow (pre ++ tok :: post) w
           = (Raised (UsageError msg), w, []).
Proof.
  intros Hno Hpre Htok. rewrite (run_command_split _ _ pre st) by done.
  destruct (run_asks_help st tok post Htok) as (st1 & Hseen & ->).
  destruct (process_args_for_options run_parser st1 post) as [e|[st' rest]] eqn:Hrun.
  - right. by eexists.
  - left. unfold run_parsed.
    by rewrite (proj2 (flag_param_help_seen st')) by by eapply run_help_stays.
Qed.

Lemma run_help_wins_witness :
  run_command Sample.nek_base Sample.eager_launcher
    (["--mode"; "slurm"] ++ "-with-trace" :: ["samples.csv"]) Sample.fresh
  = (Raised (ClickExit 0), Sample.fresh, [EvHelp "run"])
  ∨ ∃ msg, run_command Sample.nek_base Sample.eager_launcher
             (["--mode"; "slurm"] ++ "-with-trace" :: ["samples.csv"]) Sample.fresh
           = (Raised (UsageError msg), Sample.fresh, []).
Proof.
  refine (run_help_wins Sample.nek_base Sample.eager_launcher
            ["--mode"; "slurm"]
            {| opts := {[ "_mode" := VStr "slurm" ]}; largs := [] |}
            "-with-trace" ["samples.csv"] Sample.fresh _ _ _).
  - not_a_member.
  - reflexivity.
  - reflexivity.
Defined.

(** X6. Everything behind the first marker [--] is passed on as it is, also
    tokens that would otherwise be options of [run] or ask for help; the
    marker itself is dropped. *)
Theorem run_passes_all_behind_marker
    (nek_base : string → string)
    (run_nextflow : string → string → list string → M unit)
    (pre : list string) (st : ParsingState) (rest : list string) (w : World) :
  "--" ∉ pre →
  process_args_for_options run_parser empty_state pre = inr (st, []) →
  ¬ help_seen st →
  run_command nek_base run_nextflow (pre ++ "--" :: rest) w
  = run run_nextflow
      (str_param (opts st) "main_path" (nek_base "main.nf"))
      (str_param (opts st) "_mode" "local")
      {| nextflow_args := largs st ++ rest |} w.
Proof.
  intros Hno Hpre Hhelp. rewrite (run_command_split _ _ pre st) by done.
  cbn [process_args_for_options]. rewrite bool_decide_eq_true_2 by done.
  unfold run_parsed. by rewrite flag_param_not_help_seen.
Qed.

Lemma run_passes_all_behind_marker_witness :
  run_command Sample.nek_base Sample.eager_launcher
    (["samples.csv"] ++ "--" :: ["-with-report"; "--mode"; "--help"; "--"])
    Sample.fresh
  = run Sample.eager_launcher "/opt/crispin/main.nf" "local"
      {| nextflow_args := ["samples.csv"; "-with-report"; "--mode"; "--help"; "--"] |}
      Sample.fresh.
Proof.
  refine (run_passes_all_behind_marker Sample.nek_base Sample.eager_launcher
            ["samples.csv"] {| opts := ∅; largs := ["samples.csv"] |}
            ["-with-report"; "--mode"; "--help"; "--"] Sample.fresh _ _ _).
  - not_a_member.
  - reflexivity.
  - discriminate.
Defined.

(** X7. A command line of words that do not begin with a dash and of
    unrecognized options, in any mixture, runs the bundled entry file in
    mode [local] and passes every token on, in the order typed. *)
Theorem run_forwards_words_and_options
    (nek_base : string → string)
    (run_nextflow : string → string → list string → M unit)
    (ts : list string) (w : World) :
  Forall (λ arg, forwarded arg = true) ts →
  run_command nek_base run_nextflow ts w
  = run run_nextflow (nek_base "main.nf") "local" {| nextflow_args := ts |} w.
Proof.
  intros Hts. rewrite run_command_parsed, run_keeps_all_forwarded by done.
  unfold run_parsed. rewrite flag_param_not_help_seen by done.
  cbn [opts largs empty_state]. unfold str_param.
  rewrite !lookup_empty. by rewrite app_nil_r.
Qed.

Lemma run_forwards_words_and_options_witness :
  run_command Sample.nek_base Sample.eager_launcher
    ["--input"; "samples.csv"; ""; "-resume"; "--outdir=out"] Sample.fresh
  = run Sample.eager_launcher "/opt/crispin/main.nf" "local"
      {| nextflow_args := ["--input"; "samples.csv"; ""; "-resume"; "--outdir=out"] |}
      Sample.fresh.
Proof.
  refine (run_forwards_words_and_options Sample.nek_base Sample.eager_launcher
            ["--input"; "samples.csv"; ""; "-resume"; "--outdir=out"]
            Sample.fresh _).
  repeat constructor.
Defined.

(** X8. The command [run] ends in one of four ways and no other: a usage
    error because [--main] or [--mode] has no value, a usage error because
    [--help] was given a value, the help page, or a call of the function
    [run] with pass-through arguments that are a subsequence of the tokens
    typed. An option that is not declared is never an error. *)
Theorem run_command_outcomes
    (nek_base : string → string)
    (run_nextflow : string → string → list string → M unit)
    (args : list string) (w : World) :
  (∃ name, (name = "--main" ∨ name = "--mode")
           ∧ run_command nek_base run_nextflow args w
             = (Raised (UsageError ("Option '" +:+ name +:+ "' requires an argument.")),
                w, []))
  ∨ run_command nek_base run_nextflow args w
    = (Raised (UsageError "Option '--help' does not take a value."), w, [])
  ∨ run_command nek_base run_nextflow args w
    = (Raised (ClickExit 0), w, [EvHelp "run"])
  ∨ ∃ main_path _mode positional,
      positional `sublist_of` args
      ∧ run_command nek_base run_nextflow args w
        = run run_nextflow main_path _mode {| nextflow_args := positional |} w.
Proof.
  rewrite run_command_parsed.
  destruct (process_args_for_options run_parser empty_state args)
    as [e|[st rest]] eqn:Hrun.
  - apply run_loop_errors in Hrun as [->|[->| ->]].
    + left. exists "--main". auto.
    + left. exists "--mode". auto.
    + right; left. done.
  - unfold run_parsed. destruct (flag_param (opts st) "help") eqn:Hhelp.
    + right; right; left. done.
    + right; right; right. eexists _, _, _. split; [|done].
      eapply (run_positional_sublist args (opts st)); [|done].
      unfold parse_args. by rewrite Hrun.
Qed.

(** ** The command line of [init] *)
Section init_parser_facts.

Lemma init_parser_long :
  long_opt init_parser = {[ "--help" := help_option ["-h"; "--help"] ]}.
Proof. reflexivity. Qed.

Lemma init_parser_short :
  short_opt init_parser = {[ "-h" := help_option ["-h"; "--help"] ]}.
Proof. reflexivity. Qed.

Lemma init_parser_prefixes : opt_prefixes init_parser = {[ "-"; "--" ]}.
Proof. vm_compute. reflexivity. Qed.

Lemma init_option_like_shape arg :
  option_like init_parser arg = true → ∃ c1 r, arg = String "-" (String c1 r).
Proof.
  unfold option_like. rewrite init_parser_prefixes.
  destruct arg as [|c0 [|c1 r]]; simpl.
  - by rewrite andb_false_r.
  - by rewrite andb_false_r.
  - rewrite andb_true_r. intros H%bool_decide_eq_true.
    apply elem_of_union in H as [H|H]; apply elem_of_singleton in H;
      simplify_eq. eauto.
Qed.

(** A cluster of short options of [init]: every [h] sets the help flag, any
    other character is an error, and nothing is kept. *)
Lemma init_short_chars chars st :
  match match_short_chars init_parser "-" chars "" st with
  | Done st' => largs st' = largs st ∧ (help_seen st ∨ chars ≠ "" → help_seen st')
  | Need _ _ => False
  | NoMatch _ => False
  | Fail _ => True
  end.
Proof.
  revert st. induction chars as [|ch chars IH]; intros st.
  - cbn. split; [done|]. by intros [?|?].
  - cbn [match_short_chars]. rewrite init_parser_short.
    destruct (decide (ch = "h"%char)) as [->|Hch].
    + rewrite lookup_singleton_eq. cbn [takes_value help_option].
      specialize (IH (process (help_option ["-h"; "--help"]) VTrue st)).
      destruct (match_short_chars init_parser "-" chars ""
                  (process (help_option ["-h"; "--help"]) VTrue st)); try done.
      destruct IH as [Hl Hseen]. split; [done|]. intros _.
      apply Hseen. left. apply help_seen_help.
    + rewrite lookup_singleton_ne by congruence. done.
Qed.

(** What [init] does with one option-like token: [--help] and clusters of
    [h] set the flag, anything else is an error. *)
Lemma init_process_opts c1 r st :
  match process_opts init_parser (String "-" (String c1 r)) st with
  | Done st' => largs st' = largs st ∧ help_seen st'
  | Need _ _ => False
  | NoMatch _ => False
  | Fail _ => True
  end.
Proof.
  unfold process_opts, match_long_opt.
  destruct (partition_eq (String "-" (String c1 r))) as [name ev].
  rewrite init_parser_long.
  destruct (decide (name = "--help")) as [->|Hname].
  - rewrite lookup_singleton_eq. destruct ev; [done|].
    split; [done|apply help_seen_help].
  - rewrite lookup_singleton_ne by done.
    case_bool_decide; [|done].
    unfold match_short_opt.
    pose proof (init_short_chars (String c1 r) st) as Hshort.
    destruct (match_short_chars init_parser "-" (String c1 r) "" st); try done.
    destruct Hshort as [Hl Hseen]. split; [done|]. apply Hseen. by right.
Qed.

Lemma init_loop_invariant st rargs st' rest :
  process_args_for_options init_parser st rargs = inr (st', rest) →
  (help_seen st → help_seen st')
  ∧ (∃ kept, largs st' = largs st ++ kept)
  ∧ (¬ help_seen st' → largs st' ++ rest = largs st →
     rargs = [] ∨ rargs = ["--"]).
Proof.
  revert st' rest.
  pattern st, rargs, (process_args_for_options init_parser st rargs).
  apply option_loop_ind; clear st rargs.
  - intros st st' rest [= <- <-]. split_and!; [done| |auto].
    exists []. by rewrite app_nil_r.
  - intros st rest0 st' rest [= <- <-]. split_and!; [done| |].
    + exists []. by rewrite app_nil_r.
    + intros _ Hl. right. f_equal.
      apply (f_equal length) in Hl. rewrite length_app in Hl.
      destruct rest0; [done|simpl in Hl; lia].
  - intros st arg rest0 st1 _ (c1 & r & ->)%init_option_like_shape Hstep IH
      st' rest Hrun.
    pose proof (init_process_opts c1 r st) as Hopt. rewrite Hstep in Hopt.
    destruct Hopt as [Hl Hseen1].
    destruct (IH _ _ Hrun) as (Hstay & [kept Hkept] & _).
    assert (help_seen st') as Hseen by auto.
    split_and!; [done|exists kept; by rewrite <- Hl|done].
  - intros st arg name k v rest0 _ (c1 & r & ->)%init_option_like_shape Hstep.
    pose proof (init_process_opts c1 r st) as Hopt. by rewrite Hstep in Hopt.
  - done.
  - done.
  - done.
  - intros st arg rest0 _ _ _ IH st' rest Hrun.
    destruct (IH _ _ Hrun) as (Hstay & [kept Hkept] & _).
    cbn [push_larg largs opts] in *. split_and!.
    + done.
    + exists (arg :: kept). by rewrite Hkept, <- app_assoc.
    + intros _ Hl. rewrite Hkept in Hl.
      apply (f_equal length) in Hl. rewrite !length_app in Hl. simpl in Hl. lia.
  - intros st arg rest0 _ _ Hinter. done.
Qed.

End init_parser_facts.

(** ** Further properties of [init] *)

(** X9. The command [init] takes no arguments. Only the empty command line
    and a bare [--] reach the function [init]; every other command line
    either shows the help page and exits with 0 ([--help], [-h]) or is a
    usage error, and in both cases nothing is copied, tested or created. *)
Theorem init_command_takes_no_arguments
    (copy_config : list string → M unit) (args : list string) (w : World) :
  ((args = [] ∨ args = ["--"])
   ∧ init_command copy_config args w = Main.init copy_config w)
  ∨ init_command copy_config args w = (Raised (ClickExit 0), w, [EvHelp "init"])
  ∨ ∃ msg, init_command copy_config args w = (Raised (UsageError msg), w, []).
Proof.
  unfold init_command, parse_args.
  destruct (process_args_for_options init_parser empty_state args)
    as [e|[st rest]] eqn:Hrun.
  - right; right. by eexists.
  - destruct (flag_param (opts st) "help") eqn:Hhelp; [by right; left|].
    destruct (largs st ++ rest) as [|x xs] eqn:Hpos; [|right; right; by eexists].
    left. split; [|done].
    apply init_loop_invariant in Hrun as (_ & _ & Hempty). apply Hempty; [|done].
    unfold flag_param in Hhelp. by apply bool_decide_eq_false in Hhelp.
Qed.

(** X10. [init] over any [copy_config]: a copy that fails is the failure of
    [init], and [log] is then neither tested nor made. Behind a copy that
    went through there is one test of [log/]; a directory [log] is left
    alone, a missing [log] is made when the working directory can be
    written, and a regular file named [log] makes [os.mkdir] fail with
    [FileExistsError], because [log/] does not exist as a directory. *)
Theorem init_log_directory_cases
    (copy_config : list string → M unit) (w : World) :
  match copy_config ["nextflow.config"; "conf/"; "assets/"] w with
  | (Raised e, w1, t) => Main.init copy_config w = (Raised e, w1, t)
  | (Returned _, w1, t) =>
      Main.init copy_config w =
      match fs w1 !! "log" with
      | Some Dir => (Returned tt, w1, t ++ [EvExists "log/" true])
      | Some (File _) =>
          (Raised (FileExistsError "log/"), w1,
           t ++ [EvExists "log/" false; EvMkdir "log/"])
      | None =>
          if writable w1
          then (Returned tt, set_fs (insert "log" Dir) w1,
                t ++ [EvExists "log/" false; EvMkdir "log/"])
          else (Raised (PermissionError "log/"), w1,
                t ++ [EvExists "log/" false; EvMkdir "log/"])
      end
  end.
Proof.
  destruct (copy_config _ w) as [[[[]|e] w1] t] eqn:Hcopy.
  - rewrite (init_after_copy _ _ _ _ Hcopy), os_mkdir_cases.
    unfold path_exists. change (strip_slash "log/") with "log".
    destruct (fs w1 !! "log") as [[content|]|]; [done..|].
    by destruct (writable w1).
  - unfold Main.init, mbind, M_bind. by rewrite Hcopy.
Qed.

(** ** Properties of the command group *)
Section cli_parser_facts.

Lemma cli_parser_long :
  long_opt cli_parser =
  <["--version" := version_option]> (<["--citation" := citation_option]>
    (<["--help" := help_option ["-h"; "--help"]]> ∅)).
Proof. reflexivity. Qed.

Lemma cli_parser_short :
  short_opt cli_parser =
  <["-v" := version_option]> (<["-h" := help_option ["-h"; "--help"]]> ∅).
Proof. reflexivity. Qed.

Lemma cli_parser_prefixes : opt_prefixes cli_parser = {[ "-"; "--" ]}.
Proof. vm_compute. reflexivity. Qed.

Lemma cli_option_like arg :
  option_like cli_parser arg =
  match arg with
  | String c0 (String _ _) => bool_decide (c0 = "-"%char)
  | _ => false
  end.
Proof.
  unfold option_like. rewrite cli_parser_prefixes.
  destruct arg as [|c0 [|c1 r]]; simpl.
  - apply andb_false_r.
  - apply andb_false_r.
  - rewrite andb_true_r. apply bool_decide_ext.
    rewrite elem_of_union, !elem_of_singleton.
    split; [intros [[=]|[=]]|intros ->]; auto.
Qed.

End cli_parser_facts.

(** X11. The group reads its own flags only in front of the command name:
    from the first word that does not begin with a dash on, every token is
    left for the command, also [-v], [--version], [--citation] and [-h]. *)
Theorem cli_reads_nothing_behind_the_command (word : string) (rest : list string) :
  begins_with_dash word = false →
  parse_args cli_parser (word :: rest) = inr (∅, word :: rest).
Proof.
  intros Hword. unfold parse_args. cbn [process_args_for_options].
  rewrite cli_option_like.
  rewrite bool_decide_eq_false_2.
  2:{ intros ->. done. }
  destruct word as [|c0 [|c1 r]]; [done..|].
  cbn [begins_with_dash] in Hword. by rewrite Hword.
Qed.

Lemma cli_reads_nothing_behind_the_command_witness :
  parse_args cli_parser ["run"; "-v"; "--citation"; "-h"]
  = inr (∅, ["run"; "-v"; "--citation"; "-h"]).
Proof.
  refine (cli_reads_nothing_behind_the_command "run" ["-v"; "--citation"; "-h"] _).
  reflexivity.
Defined.

(** X13. Unlike [run], the group does not let unknown options through: in
    front of the command name a token of two dashes and a name other than
    [version], [citation] and [help] is a usage error, and so is a token of
    one dash whose first character is neither [v] nor [h]. *)
Theorem cli_rejects_unknown_options (c1 : ascii) (r : string) (rest : list string) :
  String c1 r ≠ "-" →
  (c1 = "-"%char →
   long_name (String "-" (String c1 r)) ∉ ["--version"; "--citation"; "--help"]) →
  c1 ≠ "v"%char → c1 ≠ "h"%char →
  ∃ name, parse_args cli_parser (String "-" (String c1 r) :: rest)
          = inl (NoSuchOption name).
Proof.
  intros Hmarker Hlong Hv Hh. unfold parse_args. cbn [process_args_for_options].
  rewrite cli_option_like, (bool_decide_eq_true_2 ("-"%char = "-"%char)) by done.
  rewrite bool_decide_eq_false_2 by congruence.
  unfold process_opts, match_long_opt, long_name in *.
  destruct (partition_eq (String "-" (String c1 r))) as [name ev] eqn:Hpart.
  cbn [fst] in Hlong.
  assert (long_opt cli_parser !! name = None) as ->.
  { destruct (decide (c1 = "-"%char)) as [Hc1|Hc1].
    - specialize (Hlong Hc1). rewrite cli_parser_long.
      rewrite !elem_of_cons, elem_of_nil in Hlong.
      rewrite !lookup_insert_ne by naive_solver. done.
    - rewrite cli_parser_long.
      cbn [partition_eq] in Hpart.
      rewrite (bool_decide_eq_false_2 ("-"%char = "="%char)) in Hpart by done.
      case_bool_decide; destruct (partition_eq r); simplify_eq;
        by rewrite !lookup_insert_ne by congruence. }
  replace (String.substring 0 2 (String "-" (String c1 r)))
    with (String "-" (String c1 "")) by (by destruct r).
  rewrite cli_parser_prefixes.
  destruct (decide (c1 = "-"%char)) as [->|Hc1].
  - rewrite bool_decide_eq_false_2.
    + by eexists.
    + intros H. apply H, elem_of_union_r. by apply elem_of_singleton.
  - rewrite bool_decide_eq_true_2.
    + unfold match_short_opt. cbn [match_short_chars].
      rewrite cli_parser_short, !lookup_insert_ne, lookup_empty by congruence.
      by eexists.
    + rewrite elem_of_union, !elem_of_singleton. intros [[=]|[=]]. done.
Qed.

Lemma cli_rejects_unknown_options_witness :
  ∃ name, parse_args cli_parser ["-resume"; "run"] = inl (NoSuchOption name).
Proof.
  refine (cli_rejects_unknown_options "r" "esume" ["run"] _ _ _ _).
  - discriminate.
  - discriminate.
  - discriminate.
  - discriminate.
Defined.

(** ** The command line of [run] and the entry path *)

(** X14. The documented way to run from GitHub: behind [--main CCBR/CRISPIN]
    and any forwarded tokens the command enters the launcher at once, with
    the sentinel as entry path, mode [local] and the tokens in order; the
    filesystem is not consulted. *)
Theorem run_command_github_repo
    (nek_base : string → string)
    (run_nextflow : string → string → list string → M unit)
    (ts : list string) (w : World) :
  Forall (λ arg, forwarded arg = true) ts →
  run_command nek_base run_nextflow ("--main" :: "CCBR/CRISPIN" :: ts) w
  = let '(r, w', t) := run_nextflow "CCBR/CRISPIN" "local" ts w in
    (r, w', EvRunNextflow "CCBR/CRISPIN" "local" ts :: t).
Proof.
  intros Hts. rewrite run_command_parsed.
  rewrite (run_reads_value empty_state main_option) by auto.
  rewrite run_keeps_all_forwarded by done.
  unfold run_parsed. rewrite flag_param_not_help_seen by done.
  rewrite run_cases. cbn [opts largs process dest main_option empty_state].
  unfold str_param. rewrite lookup_insert_eq, lookup_insert_ne, lookup_empty by done.
  rewrite decide_True by done. by rewrite app_nil_r.
Qed.

Lemma run_command_github_repo_witness :
  run_command Sample.nek_base Sample.eager_launcher
    ["--main"; "CCBR/CRISPIN"; "-r"; "v0.1.0"] Sample.fresh
  = (Returned tt, Sample.fresh,
     [EvRunNextflow "CCBR/CRISPIN" "local" ["-r"; "v0.1.0"];
      EvSpawn ["nextflow"; "run"; "CCBR/CRISPIN"; "-r"; "v0.1.0"] (Some 0%Z)]).
Proof.
  refine (run_command_github_repo Sample.nek_base Sample.eager_launcher
            ["-r"; "v0.1.0"] Sample.fresh _).
  repeat constructor.
Defined.

(** X15. The entry path the command line settles on, the value of the last
    [--main] or else the bundled [main.nf], is checked like any other: when
    it is not the sentinel and does not exist, the command ends in the
    path-not-found error with exit status 1, the one existence test is all
    that happened, and the launcher is not entered. *)
Theorem run_command_rejects_missing_path
    (nek_base : string → string)
    (run_nextflow : string → string → list string → M unit)
    (args : list string) (o : gmap string value) (positional : list string)
    (w : World) :
  parse_args run_parser args = inr (o, positional) →
  flag_param o "help" = false →
  str_param o "main_path" (nek_base "main.nf") ≠ "CCBR/CRISPIN" →
  path_exists w (str_param o "main_path" (nek_base "main.nf")) = false →
  run_command nek_base run_nextflow args w
  = (Raised (FileNotFoundError
               ("Path to the crispin main.nf file not found: "
                +:+ str_param o "main_path" (nek_base "main.nf"))),
     w, [EvExists (str_param o "main_path" (nek_base "main.nf")) false])
  ∧ exit_status (outcome (run_command nek_base run_nextflow args w)) = 1%Z.
Proof.
  intros Hparse Hhelp Hrepo Hmissing.
  unfold run_command. rewrite Hparse, Hhelp, run_cases.
  by rewrite decide_False, Hmissing by done.
Qed.

Lemma run_command_rejects_missing_path_witness :
  run_command (λ path, "/nowhere/" +:+ path) Sample.eager_launcher
    ["samples.csv"] Sample.fresh
  = (Raised (FileNotFoundError
               "Path to the crispin main.nf file not found: /nowhere/main.nf"),
     Sample.fresh, [EvExists "/nowhere/main.nf" false]).
Proof.
  refine (proj1 (run_command_rejects_missing_path (λ path, "/nowhere/" +:+ path)
                   Sample.eager_launcher ["samples.csv"] ∅ ["samples.csv"]
                   Sample.fresh _ _ _ _)).
  - reflexivity.
  - reflexivity.
  - discriminate.
  - reflexivity.
Defined.

(** ** The kept arguments only grow *)
Section run_largs.

Lemma recombine_largs u st : largs st `prefix_of` largs (recombine "-" u st).
Proof.
  unfold recombine. case_bool_decide; [done|]. by apply prefix_app_r.
Qed.

Lemma run_step_largs arg st :
  option_like run_parser arg = true →
  match process_opts run_parser arg st with
  | Done st' => largs st `prefix_of` largs st'
  | Need _ k => ∀ v, largs (k v) = largs st
  | NoMatch _ => False
  | Fail _ => True
  end.
Proof.
  intros (c1 & r & ->)%option_like_shape. rewrite run_process_opts. cbn zeta.
  destruct (partition_eq (String "-" (String c1 r))) as [name ev].
  repeat case_decide; try (by destruct ev); try (by apply prefix_app_r).
  etrans; [|apply recombine_largs]. by destruct (has_char "h" (String c1 r)).
Qed.

Lemma run_largs_grow st rargs st' rest :
  process_args_for_options run_parser st rargs = inr (st', rest) →
  largs st `prefix_of` largs st'.
Proof.
  revert st' rest.
  pattern st, rargs, (process_args_for_options run_parser st rargs).
  apply option_loop_ind; clear st rargs.
  - by intros st st' rest [= <- <-].
  - by intros st rest0 st' rest [= <- <-].
  - intros st arg rest0 st1 _ Hlike Hstep IH st' rest Hrun.
    pose proof (run_step_largs arg st Hlike) as Hl. rewrite Hstep in Hl.
    etrans; [exact Hl|]. by eapply IH.
  - intros st arg name k v rest0 _ Hlike Hstep IH st' rest Hrun.
    pose proof (run_step_largs arg st Hlike) as Hl. rewrite Hstep in Hl.
    rewrite <- (Hl v). by eapply IH.
  - done.
  - done.
  - done.
  - intros st arg rest0 _ _ _ IH st' rest Hrun.
    etrans; [|by eapply IH]. by apply prefix_app_r.
  - by intros st arg rest0 _ _ _ st' rest [= <- <-].
Qed.

End run_largs.

(** ** Claims about the command line of [run], stated on the whole line *)

(** C9. A command line without [--mode] yields the mode ["local"], and
    ["local"] is what reaches the launcher: when the line parses, asks for
    no help and settles on an entry path that is the sentinel or exists,
    the command is the launcher called with that path, the mode ["local"]
    and the pass-through arguments, behind the existence test of a local
    path. The command behaves exactly as the same command line with
    [--mode local] in front. *)
Theorem run_mode_defaults_to_local
    (nek_base : string → string)
    (run_nextflow : string → string → list string → M unit)
    (args : list string) (w : World) :
  omits_mode args →
  (∀ o positional, parse_args run_parser args = inr (o, positional) →
                   str_param o "_mode" "local" = "local")
  ∧ run_command nek_base run_nextflow args w
    = run_command nek_base run_nextflow ("--mode" :: "local" :: args) w
  ∧ (∀ o positional,
       parse_args run_parser args = inr (o, positional) →
       flag_param o "help" = false →
       str_param o "main_path" (nek_base "main.nf") = "CCBR/CRISPIN"
       ∨ path_exists w (str_param o "main_path" (nek_base "main.nf")) = true →
       run_command nek_base run_nextflow args w
       = let '(r, w', t) :=
           run_nextflow (str_param o "main_path" (nek_base "main.nf")) "local"
             positional w in
         (r, w',
          (if decide (str_param o "main_path" (nek_base "main.nf") = "CCBR/CRISPIN")
           then []
           else [EvExists (str_param o "main_path" (nek_base "main.nf")) true])
          ++ EvRunNextflow (str_param o "main_path" (nek_base "main.nf")) "local"
               positional :: t)).
Proof.
  intros Hargs.
  assert (mode_preset (process mode_option (VStr "local") empty_state) empty_state)
    as Hpre by done.
  pose proof (run_mode_preset empty_state args Hargs _ Hpre) as Hrel.
  assert (process_args_for_options run_parser empty_state ("--mode" :: "local" :: args)
          = process_args_for_options run_parser
              (process mode_option (VStr "local") empty_state) args) as Hfront.
  { cbn [process_args_for_options].
    rewrite run_option_like, run_process_opts. done. }
  assert (∀ o positional, parse_args run_parser args = inr (o, positional) →
                          str_param o "_mode" "local" = "local") as Hlocal.
  { unfold parse_args. intros o positional Hparse.
    destruct (process_args_for_options run_parser
                (process mode_option (VStr "local") empty_state) args)
      as [e1|[s1 r1]];
      destruct (process_args_for_options run_parser empty_state args)
        as [e2|[s2 r2]]; try done.
    destruct Hrel as [(_ & Hnone & _) _]. simplify_eq.
    unfold str_param. by rewrite Hnone. }
  split_and!; [done| |].
  - unfold run_command, parse_args. rewrite Hfront.
    destruct (process_args_for_options run_parser
                (process mode_option (VStr "local") empty_state) args)
      as [e1|[s1 r1]];
      destruct (process_args_for_options run_parser empty_state args)
        as [e2|[s2 r2]]; try done.
    + by subst.
    + destruct Hrel as [(Ho & Hnone & Hl) ->].
      unfold flag_param, str_param in *.
      rewrite Ho, Hl, lookup_insert_eq, !lookup_insert_ne, Hnone by done.
      done.
  - intros o positional Hparse Hhelp Hpath.
    unfold run_command. rewrite Hparse, Hhelp, (Hlocal o positional Hparse).
    rewrite run_cases. cbn [nextflow_args].
    case_decide as Hrepo.
    + by destruct (run_nextflow _ _ _ w) as [[r w'] t].
    + destruct Hpath as [?|Hthere]; [done|]. rewrite Hthere.
      by destruct (run_nextflow _ _ _ w) as [[r w'] t].
Qed.

Lemma run_mode_defaults_to_local_witness :
  run_command Sample.nek_base Sample.eager_launcher ["-resume"] Sample.fresh
  = (Returned tt, Sample.fresh,
     [EvExists "/opt/crispin/main.nf" true;
      EvRunNextflow "/opt/crispin/main.nf" "local" ["-resume"];
      EvSpawn ["nextflow"; "run"; "/opt/crispin/main.nf"; "-resume"] (Some 0%Z)]).
Proof.
  refine (proj2 (proj2 (run_mode_defaults_to_local Sample.nek_base
                          Sample.eager_launcher ["-resume"] Sample.fresh _))
            ∅ ["-resume"] _ _ _).
  - repeat constructor. discriminate.
  - reflexivity.
  - reflexivity.
  - right. reflexivity.
Defined.

(** C10 (amended). Wherever it stands in front of the marker [--], behind
    options that were read to their end, a token that begins with a dash
    and that no option of [run] matches is never a usage error: if the
    line is refused, it is refused for what follows the token. Whenever
    the line parses, the token is among the pass-through arguments,
    unchanged, right behind the arguments kept before it, and without a
    request for help the function [run] is called with them. Behind the
    marker the token is passed on as well. *)
Theorem run_forwards_unrecognized_options
    (nek_base : string → string)
    (run_nextflow : string → string → list string → M unit)
    (pre : list string) (st : ParsingState) (tok : string) (post : list string)
    (w : World) :
  "--" ∉ pre →
  process_args_for_options run_parser empty_state pre = inr (st, []) →
  unrecognized tok = true →
  (∀ e, parse_args run_parser (pre ++ tok :: post) = inl e →
        process_args_for_options run_parser (push_larg tok st) post = inl e)
  ∧ (∀ o positional,
       parse_args run_parser (pre ++ tok :: post) = inr (o, positional) →
       largs st ++ [tok] `prefix_of` positional
       ∧ (flag_param o "help" = false →
          run_command nek_base run_nextflow (pre ++ tok :: post) w
          = run run_nextflow
              (str_param o "main_path" (nek_base "main.nf"))
              (str_param o "_mode" "local")
              {| nextflow_args := positional |} w))
  ∧ parse_args run_parser (pre ++ "--" :: tok :: post)
    = inr (opts st, largs st ++ tok :: post).
Proof.
  intros Hno Hpre Htok.
  assert (process_args_for_options run_parser empty_state (pre ++ tok :: post)
          = process_args_for_options run_parser (push_larg tok st) post) as Hline.
  { rewrite (process_args_split run_parser (tok :: post) empty_state pre st) by done.
    by apply run_keeps_unrecognized. }
  split_and!.
  - unfold parse_args. rewrite Hline. intros e.
    by destruct (process_args_for_options run_parser (push_larg tok st) post)
      as [e'|[st' rest]]; intros [= ->].
  - intros o positional Hparse. split.
    + unfold parse_args in Hparse. rewrite Hline in Hparse.
      destruct (process_args_for_options run_parser (push_larg tok st) post)
        as [e'|[st' rest]] eqn:Hrun; [done|].
      injection Hparse as <- <-.
      apply run_largs_grow in Hrun. cbn [push_larg largs] in Hrun.
      by apply prefix_app_r.
    + intros Hhelp. unfold run_command. by rewrite Hparse, Hhelp.
  - unfold parse_args.
    rewrite (process_args_split run_parser ("--" :: tok :: post) empty_state pre st)
      by done.
    cbn [process_args_for_options]. by rewrite bool_decide_eq_true_2.
Qed.

Lemma run_forwards_unrecognized_options_witness :
  ["samples.csv"] ++ ["-r"] `prefix_of` ["samples.csv"; "-r"; "v0.1.0"; "-resume"].
Proof.
  refine (proj1 (proj1 (proj2 (run_forwards_unrecognized_options Sample.nek_base
                                 Sample.eager_launcher
                                 ["--mode"; "slurm"; "samples.csv"]
                                 {| opts := {[ "_mode" := VStr "slurm" ]};
                                    largs := ["samples.csv"] |}
                                 "-r" ["v0.1.0"; "--main"; "CCBR/CRISPIN"; "-resume"]
                                 Sample.fresh _ _ _))
                  {[ "_mode" := VStr "slurm"; "main_path" := VStr "CCBR/CRISPIN" ]}
                  ["samples.csv"; "-r"; "v0.1.0"; "-resume"] _)).
  - not_a_member.
  - reflexivity.
  - reflexivity.
  - reflexivity.
Defined.


